(** * quantumsim: circuit timeline, idle-interval synthesis, ordering and
      measurement samplers (circuit.py)

    A shallow embedding of [circuit.py].

    - Python numbers (timestamps, durations, probabilities) are exact
      rationals [Q]; the threshold [1e-6] is [1 # 1000000].
    - Gate and generator objects live in a store and are addressed by
      reference, so that a mutation through one reference is seen through
      every alias, as in Python.
    - Fallible code returns [result A]: either the class name of the Python
      exception it raises, or a value.
    - numpy's random stream, the density-matrix engine and the [tp]
      scheduler are interfaces (type classes); the code is verified against
      every implementation of them. *)

From Stdlib Require Import QArith ZArith List Bool Lia Lqa.
From Stdlib Require Import DecimalString.
From stdpp Require Import gmap strings list sorting.

Local Open Scope string_scope.
Local Open Scope list_scope.

(** ** Numbers *)

Definition Qltb (x y : Q) : bool := negb (Qle_bool y x).

(** Python [max(a, b)]: the first argument unless the second is greater. *)
Definition py_max (a b : Q) : Q := if Qltb a b then b else a.

Definition micro : Q := 1 # 1000000.
Definition eps_t : Q := 1 # 10000000000.

(** ** Exceptions and results *)

Definition exn := string.

Inductive result (A : Type) : Type :=
  | Raise (e : exn)
  | Return (a : A).
Arguments Raise {A} e.
Arguments Return {A} a.

#[global] Instance result_ret : MRet result := fun _ a => Return a.
#[global] Instance result_fmap : FMap result := fun _ _ f m =>
  match m with
  | Raise e => Raise e
  | Return a => Return (f a)
  end.
#[global] Instance result_bind : MBind result := fun _ _ k m =>
  match m with
  | Raise e => Raise e
  | Return a => k a
  end.

(** ** External interfaces *)

(** [np.random.RandomState(seed)] and its [random_sample()], and [np.exp]. *)
Class Numpy := {
  rng : Type;
  RandomState : Z -> rng;
  random_sample : rng -> Q * rng;
  np_exp : Q -> Q
}.

(** Modelled from the spec: the density-matrix engine is not part of
    [circuit.py]; it exposes a read-only [peek(qubit) -> (p0, p1)], an
    irreversible [project(qubit, outcome)], the running
    [classical_probability] field, and one mutating operation per gate kind,
    reached by name. *)
Class Engine := {
  sdm : Type;
  peak_measurement : sdm -> string -> Q * Q;
  project_measurement : sdm -> string -> Z -> sdm;
  classical_probability : sdm -> Q;
  set_classical_probability : sdm -> Q -> sdm;
  call_method : sdm -> string -> list string -> list (string * Q) -> result sdm
}.

(** [tp.greedy_toposort(dependencies, delay_preferred)]. *)
Class Scheduler := {
  greedy_toposort : gmap nat (gset nat) -> gset nat -> list nat
}.

(** A scripted random stream: the draws are read off a list fixed by the
    seed, and repeat [0] once the list is exhausted. *)
Definition scripted (script : Z -> list Q) : Numpy := {|
  rng := list Q;
  RandomState := script;
  random_sample := fun s => match s with
                            | [] => (0%Q, [])
                            | r :: s' => (r, s')
                            end;
  np_exp := fun x => x
|}.

(** ** Generators (the sampler protocol) *)

(** What a sampler yields: nothing (a bare [yield]) or a triple. *)
Definition triple : Type := Z * Z * Q.

Inductive resumed (S : Type) : Type :=
  | Yield (v : option triple) (s : S)
  | Fail (e : exn).
Arguments Yield {S} v s.
Arguments Fail {S} e.

(** A generator object: its suspended frame ([None] once it has finished)
    and how the body runs from a frame to the next [yield] when it is
    resumed with a sent value ([None] is what [next()] sends). *)
Record generator : Type := Generator {
  frame_of : Type;
  frame : option frame_of;
  resume : frame_of -> option (Q * Q) -> resumed frame_of
}.

Definition suspend (g : generator) (s : frame_of g) : generator :=
  {| frame_of := frame_of g; frame := Some s; resume := resume g |}.

Definition finish (g : generator) : generator :=
  {| frame_of := frame_of g; frame := None; resume := resume g |}.

(** [g.send(x)]: the outcome and the generator afterwards. *)
Definition send (g : generator) (x : option (Q * Q))
  : result (option triple) * generator :=
  match frame g with
  | None => (Raise "StopIteration", g)
  | Some s =>
      match resume g s x with
      | Yield v s' => (Return v, suspend g s')
      | Fail e => (Raise e, finish g)
      end
  end.

(** Frames of the three sampler bodies: not yet started, or suspended at a
    [yield] inside the loop. *)
Inductive sel_frame := SelStart | SelYield.

Inductive rng_frame {N : Numpy} := RStart | RSuspended (s : rng).

Section Samplers.
Context {N : Numpy}.

(** A just-started generator accepts only [None]. *)
Definition just_started {S} (x : option (Q * Q)) (k : resumed S) : resumed S :=
  match x with
  | None => k
  | Some _ => Fail "TypeError"
  end.

(** [p0, p1 = yield ...]: unpacking what was sent. *)
Definition unpack {S} (x : option (Q * Q)) (k : Q -> Q -> resumed S) : resumed S :=
  match x with
  | None => Fail "TypeError"
  | Some (p0, p1) => k p0 p1
  end.

(** [p0/(p0+p1)] *)
Definition ratio {S} (p0 p1 : Q) (k : Q -> resumed S) : resumed S :=
  if Qeq_bool (p0 + p1) 0 then Fail "ZeroDivisionError"
  else k (p0 / (p0 + p1))%Q.

Definition selection_body (result : Z) (f : sel_frame) (x : option (Q * Q))
  : resumed sel_frame :=
  match f with
  | SelStart => just_started x (Yield (Some (result, result, 1%Q)) SelYield)
  | SelYield => Yield (Some (result, result, 1%Q)) SelYield
  end.

Definition selection_sampler (result : Z) : generator :=
  {| frame := Some SelStart; resume := selection_body result |}.

(** One turn of the loop of [uniform_sampler], entered with [(p0, p1)]. *)
Definition uniform_turn (s : rng) (p0 p1 : Q) : resumed rng_frame :=
  let '(r, s') := random_sample s in
  ratio p0 p1 (fun q =>
    if Qltb r q then Yield (Some (0%Z, 0%Z, 1%Q)) (RSuspended s')
    else Yield (Some (1%Z, 1%Z, 1%Q)) (RSuspended s')).

Definition uniform_body (seed : Z) (f : rng_frame) (x : option (Q * Q))
  : resumed rng_frame :=
  match f with
  | RStart => just_started x (Yield None (RSuspended (RandomState seed)))
  | RSuspended s => unpack x (uniform_turn s)
  end.

Definition uniform_sampler (seed : Z) : generator :=
  {| frame := Some RStart; resume := uniform_body seed |}.

(** One turn of the loop of [uniform_noisy_sampler]. *)
Definition noisy_turn (readout_error : Q) (s : rng) (p0 p1 : Q)
  : resumed rng_frame :=
  let '(r, s1) := random_sample s in
  ratio p0 p1 (fun q =>
    let proj := if Qltb r q then 0%Z else 1%Z in
    let '(r', s2) := random_sample s1 in
    let '(decl, prob) :=
      if Qltb r' readout_error then ((1 - proj)%Z, readout_error)
      else (proj, (1 - readout_error)%Q) in
    Yield (Some (proj, decl, prob)) (RSuspended s2)).

Definition uniform_noisy_body (readout_error : Q) (seed : Z)
    (f : rng_frame) (x : option (Q * Q)) : resumed rng_frame :=
  match f with
  | RStart => just_started x (Yield None (RSuspended (RandomState seed)))
  | RSuspended s => unpack x (noisy_turn readout_error s)
  end.

Definition uniform_noisy_sampler (readout_error : Q) (seed : Z) : generator :=
  {| frame := Some RStart; resume := uniform_noisy_body readout_error seed |}.

Definition default_seed : Z := 42.

(** [next(g)] *)
Definition next (g : generator) : result (option triple) * generator :=
  send g None.

(** Driving a sampler with a sequence of [(p0, p1)] inputs and collecting
    what each [send] gives back. *)
Fixpoint drive (g : generator) (inputs : list (Q * Q))
  : list (result (option triple)) :=
  match inputs with
  | [] => []
  | x :: rest =>
      let '(o, g') := send g (Some x) in
      o :: drive g' rest
  end.

End Samplers.

(** ** Qubits *)

Record qubit := mkQubit { name : string; t1 : Q; t2 : Q }.

(** [Qubit.__init__]: the coherence times are clamped from below. *)
Definition Qubit (name : string) (t1 t2 : Q) : qubit :=
  {| name := name; t1 := py_max t1 eps_t; t2 := py_max t2 eps_t |}.

(** [str(b)] *)
Definition str (b : qubit) : string := name b.

(** ** Gates *)

Abbreviation ref := nat (only parsing).

Inductive gate_class :=
  ClsGate | ClsHadamard | ClsCPhase | ClsAmpPhDamp | ClsMeasurement.

(** The attributes of a gate object. [damping] holds [(duration, t1, t2)]
    of an [AmpPhDamp]; [sampler] and [measurements] belong to a
    [Measurement]. *)
Record gate := mkGate {
  cls : gate_class;
  is_measurement : bool;
  time : Q;
  label : string;
  involved_qubits : list string;
  annotation : option string;
  method_name : option string;
  method_params : list (string * Q);
  damping : option (Q * Q * Q);
  sampler : option ref;
  measurements : list Z
}.

Definition set_annotation (a : string) (g : gate) : gate :=
  {| cls := cls g; is_measurement := is_measurement g; time := time g;
     label := label g; involved_qubits := involved_qubits g;
     annotation := Some a;
     method_name := method_name g; method_params := method_params g;
     damping := damping g; sampler := sampler g;
     measurements := measurements g |}.

Definition append_measurement (d : Z) (g : gate) : gate :=
  {| cls := cls g; is_measurement := is_measurement g; time := time g;
     label := label g; involved_qubits := involved_qubits g;
     annotation := annotation g;
     method_name := method_name g; method_params := method_params g;
     damping := damping g; sampler := sampler g;
     measurements := measurements g ++ [d] |}.

(** [Gate.__init__] *)
Definition Gate (time : Q) : gate :=
  {| cls := ClsGate; is_measurement := false; time := time; label := "$G";
     involved_qubits := []; annotation := None;
     method_name := None; method_params := [];
     damping := None; sampler := None; measurements := [] |}.

Definition Hadamard (bit : string) (time : Q) : gate :=
  {| cls := ClsHadamard; is_measurement := false; time := time; label := "$H$";
     involved_qubits := [bit]; annotation := None;
     method_name := Some "hadamard"; method_params := [];
     damping := None; sampler := None; measurements := [] |}.

Definition CPhase (bit0 bit1 : string) (time : Q) : gate :=
  {| cls := ClsCPhase; is_measurement := false; time := time; label := "$G";
     involved_qubits := [bit0; bit1]; annotation := None;
     method_name := Some "cphase"; method_params := [];
     damping := None; sampler := None; measurements := [] |}.

(** [a / b] on Python numbers. *)
Definition py_div (a b : Q) : result Q :=
  if Qeq_bool b 0 then Raise "ZeroDivisionError" else Return (a / b)%Q.

Definition AmpPhDamp {N : Numpy} (bit : string) (time duration t1 t2 : Q)
  : result gate :=
  x1 ← py_div (- duration) t1;
  x2 ← py_div (- duration) t2;
  Return
    {| cls := ClsAmpPhDamp; is_measurement := false; time := time; label := "$G";
       involved_qubits := [bit]; annotation := None;
       method_name := Some "amp_ph_damping";
       method_params := [("gamma", (1 - np_exp x1)%Q); ("lamda", (1 - np_exp x2)%Q)];
       damping := Some (duration, t1, t2); sampler := None; measurements := [] |}.

(** [gate.involves_qubit(bit)] *)
Definition involves_qubit (g : gate) (bit : string) : bool :=
  bool_decide (bit ∈ involved_qubits g).

(** ** The object store *)

Record world := mkWorld {
  gate_store : gmap ref gate;
  gen_store : gmap ref generator;
  next_ref : ref
}.

Definition empty_world : world :=
  {| gate_store := ∅; gen_store := ∅; next_ref := 0 |}.

(** The gate behind a reference. *)
Definition deref (w : world) (r : ref) : gate :=
  default (Gate 0) (gate_store w !! r).

Definition alloc_gate (w : world) (g : gate) : world * ref :=
  ({| gate_store := <[next_ref w := g]> (gate_store w);
      gen_store := gen_store w;
      next_ref := S (next_ref w) |},
   next_ref w).

Definition alloc_gen (w : world) (g : generator) : world * ref :=
  ({| gate_store := gate_store w;
      gen_store := <[next_ref w := g]> (gen_store w);
      next_ref := S (next_ref w) |},
   next_ref w).

Definition update_gate (w : world) (r : ref) (f : gate -> gate) : world :=
  {| gate_store := <[r := f (deref w r)]> (gate_store w);
     gen_store := gen_store w;
     next_ref := next_ref w |}.

Definition update_gen (w : world) (r : ref) (g : generator) : world :=
  {| gate_store := gate_store w;
     gen_store := <[r := g]> (gen_store w);
     next_ref := next_ref w |}.

(** Argument values of the constructors. *)
Inductive pyval :=
  | VNone
  | VStr (s : string)
  | VNum (q : Q)
  | VGen (r : ref).

(** Truth value of an argument, as [if sampler:] tests it. *)
Definition truthy (v : pyval) : bool :=
  match v with
  | VNone => false
  | VStr s => negb (String.eqb s "")
  | VNum q => negb (Qeq_bool q 0)
  | VGen _ => true
  end.

(** [next(self.sampler)] on the generator object behind [r]; something that
    is not a generator cannot be advanced. *)
Definition prime (w : world) (r : ref) : result world :=
  match gen_store w !! r with
  | None => Raise "TypeError"
  | Some g =>
      let '(o, g') := send g None in
      _ ← o; Return (update_gen w r g')
  end.

(** [Measurement.__init__] *)
Definition Measurement {N : Numpy} (w : world) (bit : string) (time : Q)
    (sampler : pyval) : result (world * gate) :=
  '(w1, r) ← (if truthy sampler then
                match sampler with
                | VGen r => Return (w, r)
                | _ => Raise "TypeError"
                end
              else Return (alloc_gen w (uniform_sampler default_seed)));
  w2 ← prime w1 r;
  Return (w2,
    {| cls := ClsMeasurement; is_measurement := true; time := time;
       label := "$\circ\!\!\!\!\!\!\!\nearrow$";
       involved_qubits := [bit]; annotation := None;
       method_name := None; method_params := [];
       damping := None; sampler := Some r; measurements := [] |}).

(** [self.sampler.send((p0, p1))] on the generator object behind the
    gate's [sampler] attribute. *)
Definition send_to_sampler (w : world) (g : gate) (x : Q * Q)
  : result (option triple * world) :=
  match sampler g with
  | None => Raise "AttributeError"
  | Some r =>
      match gen_store w !! r with
      | None => Raise "AttributeError"
      | Some gen =>
          let '(o, gen') := send gen (Some x) in
          v ← o; Return (v, update_gen w r gen')
      end
  end.

(** [Measurement.apply_to]. An exception ends the replay; the store it
    leaves behind is not kept. *)
Definition Measurement_apply_to {E : Engine} (w : world) (self : ref) (s : sdm)
  : result (world * sdm) :=
  match involved_qubits (deref w self) with
  | [] => Raise "IndexError"
  | bit :: _ =>
      let '(p0, p1) := peak_measurement s bit in
      '(v, w1) ← send_to_sampler w (deref w self) (p0, p1);
      match v with
      | None => Raise "TypeError"
      | Some (declare, project, cond_prob) =>
          let w2 := update_gate w1 self (append_measurement declare) in
          let s1 := project_measurement s bit project in
          Return (w2,
                  set_classical_probability s1
                    (classical_probability s1 * cond_prob)%Q)
      end
  end.

(** [Gate.apply_to], with the override of [Measurement]. *)
Definition Gate_apply_to {E : Engine} (w : world) (self : ref) (s : sdm)
  : result (world * sdm) :=
  let g := deref w self in
  match cls g with
  | ClsMeasurement => Measurement_apply_to w self s
  | _ =>
      match method_name g with
      | None => Raise "AttributeError"
      | Some m =>
          s' ← call_method s m (involved_qubits g) (method_params g);
          Return (w, s')
      end
  end.

(** ** Circuits *)

Record circuit := mkCircuit {
  qubits : list qubit;
  gates : list ref;
  title : string
}.

(** [Circuit.__init__] *)
Definition Circuit (title : string) : circuit :=
  {| qubits := []; gates := []; title := title |}.

Definition set_gates (c : circuit) (l : list ref) : circuit :=
  {| qubits := qubits c; gates := l; title := title c |}.

(** [Circuit.add_qubit] with a [Qubit] instance. *)
Definition add_qubit (c : circuit) (b : qubit) : circuit * qubit :=
  ({| qubits := qubits c ++ [b]; gates := gates c; title := title c |}, b).

(** [Circuit.add_qubit] with the constructor's arguments. *)
Definition add_qubit_new (c : circuit) (name : string) (t1 t2 : Q)
  : circuit * qubit :=
  add_qubit c (Qubit name t1 t2).

(** [Circuit.gate_classes] *)
Definition gate_classes : gmap string gate_class :=
  list_to_map [("cphase", ClsCPhase); ("hadamard", ClsHadamard);
               ("amp_ph_damping", ClsAmpPhDamp); ("measurement", ClsMeasurement)].

(** What [add_gate] may receive as [gate_type]. *)
Inductive gate_type :=
  | GTClass (c : gate_class)
  | GTName (s : string)
  | GTInstance (r : ref)
  | GTOther.

(** Calling a gate class on positional arguments. Arguments of the wrong
    number or kind are reported as [TypeError]. *)
Definition instantiate {N : Numpy} (cl : gate_class) (args : list pyval)
    (w : world) : result (world * ref) :=
  '(w1, g) ← match cl, args with
              | ClsGate, [VNum t] => Return (w, Gate t)
              | ClsHadamard, [VStr b; VNum t] => Return (w, Hadamard b t)
              | ClsCPhase, [VStr b0; VStr b1; VNum t] => Return (w, CPhase b0 b1 t)
              | ClsAmpPhDamp, [VStr b; VNum t; VNum d; VNum t1; VNum t2] =>
                  g ← AmpPhDamp b t d t1 t2; Return (w, g)
              | ClsMeasurement, [VStr b; VNum t; s] => Measurement w b t s
              | _, _ => Raise "TypeError"
              end;
  Return (alloc_gate w1 g).

(** [self.gates[-1]] *)
Definition last_gate (c : circuit) : result ref :=
  match last (gates c) with
  | None => Raise "IndexError"
  | Some r => Return r
  end.

Definition append_gate (c : circuit) (r : ref) : circuit :=
  set_gates c (gates c ++ [r]).

(** The branch of [add_gate] taken for a [Gate] instance. *)
Definition add_gate_instance (w : world) (c : circuit) (g : ref)
  : result (world * circuit * ref) :=
  let c1 := append_gate c g in
  r ← last_gate c1; Return (w, c1, r).

(** [Circuit.add_gate] *)
Definition add_gate {N : Numpy} (w : world) (c : circuit) (gt : gate_type)
    (args : list pyval) : result (world * circuit * ref) :=
  match gt with
  | GTClass cl =>
      '(w1, g) ← instantiate cl args w;
      '(w2, c2, _) ← add_gate_instance w1 c g;
      r ← last_gate c2; Return (w2, c2, r)
  | GTName s =>
      match gate_classes !! s with
      | None => Raise "KeyError"
      | Some cl =>
          '(w1, g) ← instantiate cl args w;
          let c1 := append_gate c g in
          r ← last_gate c1; Return (w1, c1, r)
      end
  | GTInstance g => add_gate_instance w c g
  | GTOther =>
      r ← last_gate c; Return (w, c, r)
  end.

(** ** Sorting by timestamp *)

(** [sorted(l, key=...)] is stable: among equal keys the input order is
    kept. *)
Fixpoint insert_by {A} (key : A -> Q) (x : A) (l : list A) : list A :=
  match l with
  | [] => [x]
  | y :: l' =>
      if Qle_bool (key x) (key y) then x :: y :: l'
      else y :: insert_by key x l'
  end.

Fixpoint sorted {A} (key : A -> Q) (l : list A) : list A :=
  match l with
  | [] => []
  | x :: l' => insert_by key x (sorted key l')
  end.

Definition is_empty {A} (l : list A) : bool :=
  match l with [] => true | _ => false end.

Definition is_None {A} (o : option A) : bool :=
  match o with None => true | Some _ => false end.

(** A [for] loop whose body may raise. *)
Fixpoint for_each {A S} (body : A -> S -> result S) (l : list A) (s : S)
  : result S :=
  match l with
  | [] => Return s
  | x :: l' => s' ← body x s; for_each body l' s'
  end.

(** [zip(l[:-1], l[1:])] *)
Definition consecutive {A} (l : list A) : list (A * A) :=
  zip (removelast l) (tail l).

(** ** Idle-interval synthesis *)

Section Synthesis.
Context {N : Numpy}.

(** [self.add_gate(AmpPhDamp(str(b), time, duration, b.t1, b.t2))] *)
Definition add_channel (b : qubit) (time duration : Q)
    (st : world * circuit) : result (world * circuit) :=
  g ← AmpPhDamp (str b) time duration (t1 b) (t2 b);
  let '(w1, r) := alloc_gate st.1 g in
  '(w2, c2, _) ← add_gate w1 st.2 (GTInstance r) [];
  Return (w2, c2).

Definition in_window (tmin tmax : Q) (b : qubit) (g : gate) : bool :=
  involves_qubit g (str b) && (Qle_bool tmin (time g) && Qle_bool (time g) tmax).

(** The body of the loop over the qubits. [all_gates] are the gates as
    they were sorted on entry; the loop only allocates new gates and
    never changes an existing one. *)
Definition wait_qubit (all_gates : list gate) (tmin tmax : Q) (b : qubit)
    (st : world * circuit) : result (world * circuit) :=
  let gts := List.filter (in_window tmin tmax b) all_gates in
  match gts with
  | [] => add_channel b ((tmax + tmin) / 2)%Q (tmax - tmin)%Q st
  | first :: _ =>
      let final := List.last gts first in
      st1 ← (if Qltb micro (time first - tmin)
             then add_channel b ((time first + tmin) / 2)%Q
                                (time first - tmin)%Q st
             else Return st);
      st2 ← (if Qltb micro (tmax - time final)
             then add_channel b ((time final + tmax) / 2)%Q
                                (tmax - time final)%Q st1
             else Return st1);
      for_each (fun '(g1, g2) =>
                  add_channel b ((time g1 + time g2) / 2)%Q
                                (time g2 - time g1)%Q)
               (consecutive gts) st2
  end.

(** [Circuit.add_waiting_gates] *)
Definition add_waiting_gates (w : world) (c : circuit) (tmin tmax : option Q)
  : result (world * circuit) :=
  let all_gates := deref w <$> sorted (fun r => time (deref w r)) (gates c) in
  if is_empty all_gates && (is_None tmin || is_None tmax)
  then Return (w, c)
  else
    tmin ← match tmin with
            | Some t => Return t
            | None => match head all_gates with
                      | Some g => Return (time g)
                      | None => Raise "IndexError"
                      end
            end;
    tmax ← match tmax with
            | Some t => Return t
            | None => match last all_gates with
                      | Some g => Return (time g)
                      | None => Raise "IndexError"
                      end
            end;
    for_each (wait_qubit all_gates tmin tmax) (qubits c) (w, c).

End Synthesis.

(** ** Ordering *)

(** [list(enumerate(l))] *)
Definition enumerate {A} (l : list A) : list (nat * A) :=
  zip (seq 0 (length l)) l.

(** ["%d" % n] *)
Definition decimal (n : nat) : string :=
  NilZero.string_of_uint (Nat.to_uint n).

(** [[n for n, gate in all_gates if p(gate)]] *)
Definition indices_where (p : gate -> bool) (w : world)
    (all_gates : list (nat * ref)) : list nat :=
  (List.filter (fun ng => p (deref w ng.2)) all_gates).*1.

(** [all_gates] of [order]: the references sorted by timestamp, numbered. *)
Definition numbered_gates (w : world) (c : circuit) : list (nat * ref) :=
  enumerate (sorted (fun r => time (deref w r)) (gates c)).

Definition measurement_indices (w : world) (c : circuit) : list nat :=
  indices_where is_measurement w (numbered_gates w c).

(** The chain of one qubit. *)
Definition chain (w : world) (c : circuit) (b : qubit) : list nat :=
  indices_where (fun g => involves_qubit g (str b)) w (numbered_gates w c).

(** [dependencies[g2] |= {g1}]; every index is a key of the dictionary. *)
Definition add_edge (d : gmap nat (gset nat)) (e : nat * nat)
  : gmap nat (gset nat) :=
  alter (fun s => s ∪ {[e.1]}) e.2 d.

Definition dependencies (w : world) (c : circuit) : gmap nat (gset nat) :=
  foldl (fun d b => foldl add_edge d (consecutive (chain w c b)))
        (list_to_map ((fun ng => (ng.1, ∅)) <$> numbered_gates w c))
        (qubits c).

(** [all_gates[i][1].annotation = "%d" % n] *)
Definition annotate (all_gates : list (nat * ref)) (ni : nat * nat) (w : world)
  : result world :=
  match all_gates !! ni.2 with
  | None => Raise "IndexError"
  | Some (_, r) => Return (update_gate w r (set_annotation (decimal ni.1)))
  end.

(** [new_order.append(all_gates[i][1])] for each [i] of [order]. *)
Fixpoint pick (all_gates : list (nat * ref)) (order : list nat)
  : result (list ref) :=
  match order with
  | [] => Return []
  | i :: rest =>
      match all_gates !! i with
      | None => Raise "IndexError"
      | Some (_, r) => l ← pick all_gates rest; Return (r :: l)
      end
  end.

(** The schedule asked of [tp.greedy_toposort]. *)
Definition schedule {S : Scheduler} (w : world) (c : circuit) : list nat :=
  greedy_toposort (dependencies w c) (list_to_set (measurement_indices w c)).

(** [Circuit.order] *)
Definition order {S : Scheduler} (w : world) (c : circuit)
  : result (world * circuit) :=
  let all_gates := numbered_gates w c in
  let order := schedule w c in
  w' ← for_each (annotate all_gates) (enumerate order) w;
  new_order ← pick all_gates order;
  Return (w', set_gates c new_order).

(** [Circuit.apply_to] *)
Definition Circuit_apply_to {E : Engine} (w : world) (c : circuit) (s : sdm)
  : result (world * sdm) :=
  for_each (fun r ws => Gate_apply_to ws.1 r ws.2) (gates c) (w, s).

(** ** Small implementations of the interfaces, for running the code *)

(** A one-qubit register of relative probabilities with its trajectory
    weight; projecting moves all the probability to the outcome. *)
Definition toy_engine : Engine := {|
  sdm := (Q * Q) * Q;
  peak_measurement := fun s _ => s.1;
  project_measurement := fun s _ o =>
    ((if (o =? 0)%Z then (1%Q, 0%Q) else (0%Q, 1%Q)), s.2);
  classical_probability := fun s => s.2;
  set_classical_probability := fun s p => (s.1, p);
  call_method := fun s _ _ _ => Return s
|}.

(** A scheduler that keeps the chronological order. *)
Definition chronological : Scheduler := {|
  greedy_toposort := fun deps _ => seq 0 (size deps)
|}.

(** Two draws per seed: a small one, then one half. *)
Definition two_draws : Numpy := scripted (fun _ => [1 # 10; 1 # 2]%Q).

(** ** Order by timestamp *)

Definition key_le {A} (key : A -> Q) (a b : A) : Prop := (key a <= key b)%Q.

(** ** Samplers at work *)

Section Running.
Context {N : Numpy}.

(** The samplers once primed: suspended inside their loop. *)
Definition selection_running (result : Z) : generator :=
  suspend (selection_sampler result) SelYield.

Definition uniform_running (seed : Z) (s : rng) : generator :=
  suspend (uniform_sampler seed) (RSuspended s).

Definition noisy_running (readout_error : Q) (seed : Z) (s : rng) : generator :=
  suspend (uniform_noisy_sampler readout_error seed) (RSuspended s).

(** The outcome selected by a draw [r] for relative probabilities
    [(p0, p1)]. *)
Definition outcome (r p0 p1 : Q) : Z :=
  if Qltb r (p0 / (p0 + p1))%Q then 0%Z else 1%Z.

(** What a stream of draws and a sequence of inputs determine: one draw
    per input, the outcome declared and projected with weight one; a
    vanishing [p0 + p1] ends the sequence in errors. *)
Fixpoint uniform_trace (s : rng) (inputs : list (Q * Q))
  : list (result (option triple)) :=
  match inputs with
  | [] => []
  | (p0, p1) :: rest =>
      let '(r, s') := random_sample s in
      if Qeq_bool (p0 + p1) 0
      then Raise "ZeroDivisionError" :: ((fun _ => Raise "StopIteration") <$> rest)
      else Return (Some (outcome r p0 p1, outcome r p0 p1, 1%Q))
           :: uniform_trace s' rest
  end.

(** [g.send(x)] on the generator object behind a reference. *)
Definition send_at (w : world) (r : ref) (x : option (Q * Q))
  : result (option triple) * world :=
  match gen_store w !! r with
  | None => (Raise "AttributeError", w)
  | Some g => let '(o, g') := send g x in (o, update_gen w r g')
  end.

(** Two generator objects driven in an arbitrary interleaving: each step
    names the object ([true] for the first) and the input sent to it. The
    result pairs every answer with the object that gave it. *)
Fixpoint interleave (w : world) (r1 r2 : ref) (steps : list (bool * (Q * Q)))
  : list (bool * result (option triple)) :=
  match steps with
  | [] => []
  | (side, x) :: rest =>
      let '(o, w') := send_at w (if side then r1 else r2) (Some x) in
      (side, o) :: interleave w' r1 r2 rest
  end.

(** The inputs sent to, or the answers given by, one of the two objects. *)
Definition of_side {A} (side : bool) (l : list (bool * A)) : list A :=
  (List.filter (fun p => eqb p.1 side) l).*2.

End Running.

(** Replaying one measurement gate against a sequence of states. *)
Definition replay_measurement {E : Engine} (w : world) (self : ref)
    (states : list sdm) : result world :=
  for_each (fun s w => ws ← Measurement_apply_to w self s; Return ws.1) states w.

(** The declared outcomes that a stream of draws and a sequence of peeked
    probabilities determine for a measurement with the unbiased sampler. *)
Fixpoint declared_trace {N : Numpy} (s : rng) (peeks : list (Q * Q))
  : result (list Z) :=
  match peeks with
  | [] => Return []
  | (p0, p1) :: rest =>
      let '(r, s') := random_sample s in
      if Qeq_bool (p0 + p1) 0 then Raise "ZeroDivisionError"
      else l ← declared_trace s' rest; Return (outcome r p0 p1 :: l)
  end.

(** One run: a measurement gate is constructed without a sampler, replayed
    against a sequence of states, and its outcome history is read. *)
Definition measure_run {N : Numpy} {E : Engine} (w : world) (bit : string)
    (time : Q) (states : list sdm) : result (list Z) :=
  '(w1, self) ← instantiate ClsMeasurement [VStr bit; VNum time; VNone] w;
  w2 ← replay_measurement w1 self states;
  Return (measurements (deref w2 self)).

(** ** Concrete worlds, for running the code *)

(** Two unbiased samplers with the same seed, side by side. *)
Definition two_samplers : world :=
  (alloc_gen (alloc_gen empty_world
                (next (uniform_sampler (N := two_draws) 7)).2).1
             (next (uniform_sampler (N := two_draws) 7)).2).1.

(** A measurement of qubit [q] at time 20 with a noisy-readout sampler of
    error 3/4, already primed. *)
Definition noisy_measurement : world :=
  (alloc_gate
     (alloc_gen empty_world
        (next (uniform_noisy_sampler (N := two_draws) (3 # 4) 42)).2).1
     {| cls := ClsMeasurement; is_measurement := true; time := 20;
        label := "$\circ\!\!\!\!\!\!\!\nearrow$";
        involved_qubits := ["q"]; annotation := None;
        method_name := None; method_params := [];
        damping := None; sampler := Some 0%nat; measurements := [] |}).1.

(** ** Idle intervals, as the specification words them *)

(** What [Qubit.__init__] guarantees of the coherence times. *)
Definition clamped (b : qubit) : Prop := (eps_t <= t1 b)%Q /\ (eps_t <= t2 b)%Q.

(** The decoherence channel of a qubit with a given centre and duration. *)
Definition damping_channel {N : Numpy} (b : qubit) (centre duration : Q) : gate :=
  {| cls := ClsAmpPhDamp; is_measurement := false; time := centre; label := "$G";
     involved_qubits := [str b]; annotation := None;
     method_name := Some "amp_ph_damping";
     method_params := [("gamma", (1 - np_exp (- duration / t1 b))%Q);
                       ("lamda", (1 - np_exp (- duration / t2 b))%Q)];
     damping := Some (duration, t1 b, t2 b); sampler := None;
     measurements := [] |}.

(** The gates of a circuit in chronological order. *)
Definition chronological_gates (w : world) (c : circuit) : list gate :=
  deref w <$> sorted (fun r => time (deref w r)) (gates c).

(** The effective window: the given bounds, an omitted one replaced by the
    timestamp of the first, respectively last, gate in chronological order;
    no window when a bound is omitted and there is no gate. *)
Definition window (w : world) (c : circuit) (tmin tmax : option Q)
  : option (Q * Q) :=
  lo ← (match tmin with
        | Some t => Some t
        | None => time <$> head (chronological_gates w c)
        end);
  hi ← (match tmax with
        | Some t => Some t
        | None => time <$> last (chronological_gates w c)
        end);
  Some (lo, hi).

(** The timestamps, in chronological order, of the gates that involve a
    qubit and lie in the window. *)
Definition ops_in_window (w : world) (c : circuit) (b : qubit) (lo hi : Q)
  : list Q :=
  time <$> List.filter (in_window lo hi b) (chronological_gates w c).

(** The gaps that get a channel: the whole window when the qubit has no
    operation in it; otherwise the initial and the final gap when they
    exceed [1e-6], and the gap between every two consecutive operations. *)
Definition gaps (ops : list Q) (lo hi : Q) : list (Q * Q) :=
  match ops with
  | [] => [(lo, hi)]
  | first :: _ =>
      let final := List.last ops first in
      (if Qltb micro (first - lo) then [(lo, first)] else [])
      ++ (if Qltb micro (hi - final) then [(final, hi)] else [])
      ++ consecutive ops
  end.

(** A channel over a gap is centred at the midpoint of the gap and lasts as
    long as the gap. *)
Definition centred (gap : Q * Q) : Q * Q :=
  ((gap.1 + gap.2) / 2, gap.2 - gap.1)%Q.

Definition idle_channels {N : Numpy} (b : qubit) (ops : list Q) (lo hi : Q)
  : list gate :=
  (fun gap => damping_channel b (centred gap).1 (centred gap).2)
    <$> gaps ops lo hi.

(** All the channels of one synthesis, qubit after qubit. *)
Definition synthesized {N : Numpy} (w : world) (c : circuit) (lo hi : Q)
  : list gate :=
  mjoin ((fun b => idle_channels b (ops_in_window w c b lo hi) lo hi)
           <$> qubits c).

(** Allocating gates and appending them to the circuit, one by one. *)
Definition add_gates (st : world * circuit) (gs : list gate) : world * circuit :=
  foldl (fun st g => ((alloc_gate st.1 g).1,
                      append_gate st.2 (alloc_gate st.1 g).2)) st gs.

(** The interval of time that a channel accounts for. *)
Definition span_start (g : gate) : Q :=
  match damping g with
  | Some (d, _, _) => (time g - d / 2)%Q
  | None => time g
  end.

Definition span_end (g : gate) : Q :=
  match damping g with
  | Some (d, _, _) => (time g + d / 2)%Q
  | None => time g
  end.


(** Two channels overlap when their spans share more than an endpoint. *)
Definition overlaps (g1 g2 : gate) : bool :=
  Qltb (span_start g1) (span_end g1) && Qltb (span_start g2) (span_end g2)
  && (Qltb (span_start g1) (span_end g2) && Qltb (span_start g2) (span_end g1)).

(** The gates of a circuit that a synthesis has added. *)
Definition added (w' : world) (c c' : circuit) : list gate :=
  deref w' <$> drop (length (gates c)) (gates c').






(** A circuit on qubits [a] and [b]: a measurement of [a] at time 20 with
    the fixed-selection sampler of result 1, a Hadamard on [a] at time 0 and
    a controlled phase on [a], [b] at time 10, added in this order. *)
Definition example_build : result (world * circuit) :=
  let c := (add_qubit_new (add_qubit_new (Circuit "example") "a" 1000 1000).1
              "b" 1000 1000).1 in
  let w := (alloc_gen empty_world (selection_sampler 1)).1 in
  '(w, c, _) ← add_gate (N := two_draws) w c (GTName "measurement")
                 [VStr "a"; VNum 20; VGen 0];
  '(w, c, _) ← add_gate (N := two_draws) w c (GTName "hadamard")
                 [VStr "a"; VNum 0];
  '(w, c, _) ← add_gate (N := two_draws) w c (GTName "cphase")
                 [VStr "a"; VStr "b"; VNum 10];
  Return (w, c).

Definition example : world * circuit :=
  match example_build with
  | Return st => st
  | Raise _ => (empty_world, Circuit "")
  end.

(** ** Attribute lookup on a circuit *)

(** [name[n:]] *)
Fixpoint drop_chars (n : nat) (s : string) : string :=
  match n, s with
  | O, _ => s
  | S n', String _ s' => drop_chars n' s'
  | S _, EmptyString => EmptyString
  end.

(** What [Circuit.__getattribute__] hands back: [add_gate] with its first
    argument already bound to a gate class, or whatever the ordinary lookup
    of the name gives. *)
Inductive attribute :=
  | PartialAddGate (cl : gate_class)
  | Ordinary (name : string).

(** [Circuit.__getattribute__] *)
Definition Circuit_getattribute (name : string) : attribute :=
  if String.prefix "add_" name then
    match gate_classes !! drop_chars 4 name with
    | Some cl => PartialAddGate cl
    | None => Ordinary name
    end
  else Ordinary name.

(** ** Durations *)

Definition duration_of (g : gate) : Q :=
  match damping g with
  | Some (d, _, _) => d
  | None => 0
  end.

Definition total_duration (gs : list gate) : Q :=
  foldr (fun g acc => (duration_of g + acc)%Q) 0%Q gs.

(** The gates of a list that involve a qubit. *)
Definition gates_of (b : qubit) (gs : list gate) : list gate :=
  List.filter (fun g => involves_qubit g (str b)) gs.

(** A scheduler that names an index no circuit of fewer than six gates
    has. *)
Definition stray_scheduler : Scheduler := {|
  greedy_toposort := fun _ _ => [5%nat]
|}.

(** The summed length of a list of gaps. *)
Definition gaps_length (gs : list (Q * Q)) : Q :=
  foldr (fun gap acc => (gap.2 - gap.1 + acc)%Q) 0%Q gs.

(** ** Replay through the engine *)

(** The engine operation that a gate other than a measurement stands for:
    the method of its [method_name], on its qubits and parameters. *)
Definition engine_call {E : Engine} (g : gate) (s : sdm) : result sdm :=
  match method_name g with
  | None => Raise "AttributeError"
  | Some m => call_method s m (involved_qubits g) (method_params g)
  end.

(** ** Plotting *)

(** What [plot] puts on the axes, in the order of the calls. The caption of
    a decoherence channel is its duration formatted with [%g]; it is kept
    as the number. *)
Inductive caption :=
  | Caption (s : string)
  | Nanoseconds (duration : Q).

Inductive artist :=
  | SetTitle (s : string)
  | SetYTicks (ticks : list nat)
  | SetXlim (a b : Q)
  | SetYlim (a : Z) (b : nat)
  | SetXlabel (s : string)
  | AddLine (xdata : Q * Q) (ydata : nat * nat)
  | Text (x : Q) (y : nat) (s : string)
  | Annotate (c : caption) (x : Q) (y : nat) (xytext : Z * Z)
  | Scatter (xs : list Q) (ys : list nat) (marker : option string).

(** A dictionary with string keys, in insertion order. *)
Fixpoint dict_set (d : list (string * nat)) (k : string) (v : nat)
  : list (string * nat) :=
  match d with
  | [] => [(k, v)]
  | (k', v') :: d' =>
      if String.eqb k' k then (k', v) :: d' else (k', v') :: dict_set d' k v
  end.

Fixpoint dict_get (d : list (string * nat)) (k : string) : result nat :=
  match d with
  | [] => Raise "KeyError"
  | (k', v) :: d' => if String.eqb k' k then Return v else dict_get d' k
  end.

(** [{str(qb): number for number, qb in enumerate(self.qubits)}] *)
Definition coords_of (c : circuit) : list (string * nat) :=
  foldl (fun d nq => dict_set d (str nq.2) nq.1) [] (enumerate (qubits c)).

(** [l[i]] *)
Definition py_index {A} (l : list A) (i : nat) : result A :=
  match l !! i with
  | Some x => Return x
  | None => Raise "IndexError"
  end.

(** [min(l)] and [max(l)]: the first least, respectively greatest, element;
    [ValueError] on an empty list. *)
Definition py_min_list (l : list Q) : result Q :=
  match l with
  | [] => Raise "ValueError"
  | x :: l' => Return (foldl (fun m y => if Qltb y m then y else m) x l')
  end.

Definition py_max_list (l : list Q) : result Q :=
  match l with
  | [] => Raise "ValueError"
  | x :: l' => Return (foldl (fun m y => if Qltb m y then y else m) x l')
  end.

(** [Gate.plot_gate] *)
Definition Gate_plot_gate (g : gate) (coords : list (string * nat))
  : result (list artist) :=
  bit ← py_index (involved_qubits g) 0;
  y ← dict_get coords bit;
  Return [Text (time g) y (label g)].

(** [CPhase.plot_gate] *)
Definition CPhase_plot_gate (g : gate) (coords : list (string * nat))
  : result (list artist) :=
  bit0 ← py_index (involved_qubits g) 0;
  bit1 ← py_index (involved_qubits g) 1;
  y0 ← dict_get coords bit0;
  y1 ← dict_get coords bit1;
  Return [Scatter [time g; time g] [y0; y1] None;
          AddLine (time g, time g) (y0, y1)].

(** [AmpPhDamp.plot_gate] *)
Definition AmpPhDamp_plot_gate (g : gate) (coords : list (string * nat))
  : result (list artist) :=
  bit ← py_index (involved_qubits g) 0;
  y ← dict_get coords bit;
  d ← match damping g with
       | Some (d, _, _) => Return d
       | None => Raise "AttributeError"
       end;
  bit' ← py_index (involved_qubits g) 0;
  y' ← dict_get coords bit';
  Return [Scatter [time g] [y] (Some "x");
          Annotate (Nanoseconds d) (time g) y' (0, 20)%Z].

(** [gate.plot_gate(ax, coords)], by the class of the gate. *)
Definition plot_gate (g : gate) (coords : list (string * nat))
  : result (list artist) :=
  match cls g with
  | ClsCPhase => CPhase_plot_gate g coords
  | ClsAmpPhDamp => AmpPhDamp_plot_gate g coords
  | _ => Gate_plot_gate g coords
  end.

(** [Gate.annotate_gate] *)
Definition annotate_gate (g : gate) (coords : list (string * nat))
  : result (list artist) :=
  match annotation g with
  | None => Return []
  | Some a =>
      if String.eqb a "" then Return []
      else
        bit ← py_index (involved_qubits g) 0;
        y ← dict_get coords bit;
        Return [Annotate (Caption a) (time g) y (0, -15)%Z]
  end.

(** [Circuit._plot_qubit_lines] *)
Definition plot_qubit_lines (coords : list (string * nat)) (tmin tmax : Q)
  : result (list artist) :=
  let buffer := ((tmax - tmin) * (5 # 100))%Q in
  let xdata := ((tmin - buffer)%Q, (tmax + buffer)%Q) in
  for_each (fun kv acc =>
              y ← dict_get coords kv.1;
              Return (acc ++ [AddLine xdata (y, y);
                              Text (xdata.1 - 2 * buffer)%Q y kv.1]))
           coords [].

(** The window of [plot], widened when it is narrower than [0.1]. *)
Definition plot_window (times : list Q) : result (Q * Q) :=
  tmin ← py_min_list times;
  tmax ← py_max_list times;
  Return (if Qltb (tmax - tmin) (1 # 10)
          then ((tmin - (5 # 100))%Q, (tmax + (5 # 100))%Q)
          else (tmin, tmax)).

(** [Circuit.plot]: the artists put on the new axes. An exception ends the
    plot; what was drawn before it is not kept. *)
Definition plot (w : world) (c : circuit) : result (list artist) :=
  '(tmin, tmax) ← plot_window ((fun r => time (deref w r)) <$> gates c);
  let buffer := ((tmax - tmin) * (5 # 100))%Q in
  let coords := coords_of c in
  let frame := [SetTitle (title c); SetYTicks [];
                SetXlim (tmin - 5 * buffer)%Q (tmax + 3 * buffer)%Q;
                SetYlim (-1)%Z (length (qubits c)); SetXlabel "time"] in
  lines ← plot_qubit_lines coords tmin tmax;
  for_each (fun r acc =>
              a1 ← plot_gate (deref w r) coords;
              a2 ← annotate_gate (deref w r) coords;
              Return (acc ++ a1 ++ a2))
           (gates c) (frame ++ lines).

(** A qubit name is registered when some qubit of the circuit has it. *)
Definition registered (c : circuit) (bit : string) : Prop :=
  bit ∈ str <$> qubits c.

(** What [plot] needs of a gate: its first involved qubit (for a controlled
    phase, its first two) is registered. *)
Definition drawable (c : circuit) (g : gate) : Prop :=
  match cls g with
  | ClsCPhase =>
      exists b0 b1 rest, involved_qubits g = b0 :: b1 :: rest
                         /\ registered c b0 /\ registered c b1
  | ClsAmpPhDamp =>
      (exists b0 rest, involved_qubits g = b0 :: rest /\ registered c b0)
      /\ is_Some (damping g)
  | _ => exists b0 rest, involved_qubits g = b0 :: rest /\ registered c b0
  end.

(** ** Timestamps: whole numbers and binary64 *)

From Stdlib Require Floats.

(** A timestamp on which the arithmetic of the synthesis is exact whether
    the numbers are Python integers or floats: a whole number of magnitude
    at most [2^52]. Sums of two of them, halves of such sums and differences
    are binary64 numbers, so [(a + b) / 2], [b - a] and the comparison with
    [1e-6] are computed without rounding. *)
Definition integral (t : Q) : bool :=
  (Z.pos (Qden (Qred t)) =? 1)%Z && (Z.abs (Qnum (Qred t)) <=? 2 ^ 52)%Z.



Module Binary64.
Import Floats.
Local Open Scope float_scope.

(** The rational that a finite binary64 number is. *)
Definition value (x : float) : Q :=
  match Prim2SF x with
  | S754_finite s m e =>
      let v := (inject_Z (Z.pos m) * Qpower 2 e)%Q in
      if s then (- v)%Q else v
  | _ => 0%Q
  end.

(** The loop over [zip(gts[:-1], gts[1:])] of [add_waiting_gates] on float
    timestamps: for every two consecutive operations the timestamp
    [(g1.time + g2.time) / 2] and the duration [g2.time - g1.time] of the
    channel, each rounded as binary64 arithmetic rounds it. *)
Definition pair_channels (gts : list float) : list (float * float) :=
  (fun g12 => ((g12.1 + g12.2) / 2, g12.2 - g12.1)) <$> consecutive gts.


(** Whole timestamps, for comparison. *)
Definition wholes : list float := [0; 10; 21].

(** The channels of a qubit whose operations are at the given float
    timestamps, with the exact values of the numbers computed. *)
Definition channels_of (b : qubit) (gts : list float) : list gate :=
  (fun td => damping_channel (N := two_draws) b (value td.1) (value td.2))
    <$> pair_channels gts.

End Binary64.

(** * Properties *)

(** ** Numbers *)

Lemma Qltb_lt (x y : Q) : Qltb x y = true <-> (x < y)%Q.
Proof.
  unfold Qltb. rewrite negb_true_iff, <- not_true_iff_false, Qle_bool_iff.
  split; [apply Qnot_le_lt | apply Qlt_not_le].
Qed.

Lemma Qltb_ge (x y : Q) : Qltb x y = false <-> (y <= x)%Q.
Proof.
  unfold Qltb. rewrite negb_false_iff. apply Qle_bool_iff.
Qed.

Lemma Qeq_bool_pos (x : Q) : (0 < x)%Q -> Qeq_bool x 0 = false.
Proof.
  intros H. apply not_true_iff_false. intros E.
  apply Qeq_bool_iff in E. rewrite E in H. exact (Qlt_irrefl _ H).
Qed.

(** ** The samplers *)

Section SamplerFacts.
Context {N : Numpy}.

Lemma next_selection_sampler result :
  next (selection_sampler result)
  = (Return (Some (result, result, 1%Q)), selection_running result).
Proof. reflexivity. Qed.

Lemma next_uniform_sampler seed :
  next (uniform_sampler seed)
  = (Return None, uniform_running seed (RandomState seed)).
Proof. reflexivity. Qed.

Lemma next_uniform_noisy_sampler re seed :
  next (uniform_noisy_sampler re seed)
  = (Return None, noisy_running re seed (RandomState seed)).
Proof. reflexivity. Qed.

Lemma send_selection_running result x :
  send (selection_running result) x
  = (Return (Some (result, result, 1%Q)), selection_running result).
Proof. reflexivity. Qed.

Lemma send_uniform_running seed s p0 p1 :
  send (uniform_running seed s) (Some (p0, p1))
  = if Qeq_bool (p0 + p1) 0
    then (Raise "ZeroDivisionError", finish (uniform_running seed s))
    else (Return (Some (outcome (random_sample s).1 p0 p1,
                        outcome (random_sample s).1 p0 p1, 1%Q)),
          uniform_running seed (random_sample s).2).
Proof.
  unfold send, uniform_running, suspend, outcome; simpl.
  unfold uniform_turn, ratio.
  destruct (random_sample s) as [r s']; simpl.
  destruct (Qeq_bool (p0 + p1) 0); [reflexivity|].
  destruct (Qltb r (p0 / (p0 + p1))); reflexivity.
Qed.

Lemma drive_cons g x rest :
  drive g (x :: rest) = (send g (Some x)).1 :: drive (send g (Some x)).2 rest.
Proof. simpl. by destruct (send g (Some x)). Qed.

Lemma drive_selection_running result inputs :
  drive (selection_running result) inputs
  = (fun _ => Return (Some (result, result, 1%Q))) <$> inputs.
Proof.
  induction inputs as [|x rest IH]; [reflexivity|].
  rewrite drive_cons, send_selection_running. cbn [fst snd].
  by rewrite IH.
Qed.

Lemma send_finished g x :
  frame g = None -> send g x = (Raise "StopIteration", g).
Proof. intros H. unfold send. rewrite H. reflexivity. Qed.

Lemma drive_finished g inputs :
  frame g = None -> drive g inputs = (fun _ => Raise "StopIteration") <$> inputs.
Proof.
  intros H. induction inputs as [|x rest IH]; [reflexivity|].
  rewrite drive_cons, (send_finished _ _ H). cbn [fst snd]. by rewrite IH.
Qed.

Lemma drive_uniform_running seed s inputs :
  drive (uniform_running seed s) inputs = uniform_trace s inputs.
Proof.
  revert s. induction inputs as [|[p0 p1] rest IH]; intros s; [reflexivity|].
  rewrite drive_cons, send_uniform_running. cbn [uniform_trace].
  destruct (random_sample s) as [r s'] eqn:Hs; cbn [fst snd].
  destruct (Qeq_bool (p0 + p1) 0); cbn [fst snd].
  - f_equal. by apply drive_finished.
  - f_equal. apply IH.
Qed.

End SamplerFacts.

(** C9. The fixed-selection sampler, once primed, answers every input pair
    with [(result, result, 1)], whatever the pair and however many pairs
    were sent before: the inputs are ignored and the weight is always 1. *)
Theorem selection_sampler_constant (result : Z) (inputs : list (Q * Q)) :
  drive (next (selection_sampler result)).2 inputs
  = (fun _ => Return (Some (result, result, 1%Q))) <$> inputs.
Proof.
  rewrite next_selection_sampler. apply drive_selection_running.
Qed.

(** C7. Resumed with [(p0, p1)], [p0 + p1 > 0], the unbiased sampler takes
    the next draw [r] of the stream seeded at its construction, selects 0
    when [r < p0/(p0+p1)] and 1 otherwise, yields that outcome both as the
    declared and as the projected one, with weight 1, and keeps the advanced
    stream. *)
Theorem uniform_sampler_draw {N : Numpy} (seed : Z) (s : rng) (p0 p1 : Q) :
  (0 < p0 + p1)%Q ->
  let r := (random_sample s).1 in
  exists o : Z,
    next (uniform_sampler seed)
      = (Return None, uniform_running seed (RandomState seed))
    /\ send (uniform_running seed s) (Some (p0, p1))
      = (Return (Some (o, o, 1%Q)), uniform_running seed (random_sample s).2)
    /\ ((r < p0 / (p0 + p1))%Q -> o = 0%Z)
    /\ (~ (r < p0 / (p0 + p1))%Q -> o = 1%Z).
Proof.
  intros Hpos r. exists (outcome r p0 p1).
  split; [reflexivity|]. split.
  - rewrite send_uniform_running, (Qeq_bool_pos _ Hpos). reflexivity.
  - unfold outcome. destruct (Qltb r (p0 / (p0 + p1))) eqn:E.
    + split; [reflexivity|]. intros Hn. apply Qltb_lt in E. contradiction.
    + split; [|reflexivity]. intros Hl. apply Qltb_lt in Hl. congruence.
Qed.

Lemma uniform_sampler_draw_witness :
  (0 < 1 + 3)%Q /\
  exists o : Z,
    send (uniform_running (N := two_draws) 42 [1 # 10; 1 # 2]%Q) (Some (1%Q, 3%Q))
    = (Return (Some (o, o, 1%Q)), uniform_running (N := two_draws) 42 [1 # 2]%Q)
    /\ o = 0%Z.
Proof.
  split; [reflexivity|].
  destruct (uniform_sampler_draw (N := two_draws) 42 [1 # 10; 1 # 2]%Q 1 3)
    as (o & _ & Hsend & Hlt & _); [reflexivity|].
  exists o. split; [exact Hsend|]. apply Hlt. reflexivity.
Defined.

Section NoisyFacts.
Context {N : Numpy}.

Lemma send_noisy_running re seed s p0 p1 :
  (0 < p0 + p1)%Q ->
  let d1 := random_sample s in
  let d2 := random_sample d1.2 in
  let proj := outcome d1.1 p0 p1 in
  send (noisy_running re seed s) (Some (p0, p1))
  = (Return (Some (proj,
                   if Qltb d2.1 re then (1 - proj)%Z else proj,
                   if Qltb d2.1 re then re else (1 - re)%Q)),
     noisy_running re seed d2.2).
Proof.
  intros Hpos. unfold send, noisy_running, suspend, outcome; simpl.
  unfold noisy_turn, ratio.
  destruct (random_sample s) as [r s1]; simpl.
  rewrite (Qeq_bool_pos _ Hpos).
  destruct (random_sample s1) as [r' s2]; simpl.
  destruct (Qltb r' re); reflexivity.
Qed.

End NoisyFacts.

(** C1 (as the code behaves). Resumed with [(p0, p1)], [p0 + p1 > 0], the
    noisy-readout sampler draws the true outcome as the unbiased sampler
    does, and when its second draw falls below [readout_error] it yields
    the true outcome FIRST, the flipped declaration SECOND and
    [readout_error] third: the triple is (projected, declared, weight),
    not (declared, projected, weight). *)
Theorem uniform_noisy_sampler_yields_projected_first {N : Numpy}
    (re : Q) (seed : Z) (s : rng) (p0 p1 : Q) :
  (0 < p0 + p1)%Q ->
  ((random_sample (random_sample s).2).1 < re)%Q ->
  let proj := outcome (random_sample s).1 p0 p1 in
  (send (noisy_running re seed s) (Some (p0, p1))).1
  = Return (Some (proj, (1 - proj)%Z, re))
  /\ (send (uniform_running seed s) (Some (p0, p1))).1
     = Return (Some (proj, proj, 1%Q)).
Proof.
  intros Hpos Hflip proj. split.
  - rewrite (send_noisy_running _ _ _ _ _ Hpos); cbn [fst].
    apply Qltb_lt in Hflip. by rewrite Hflip.
  - rewrite send_uniform_running, (Qeq_bool_pos _ Hpos). reflexivity.
Qed.

Lemma uniform_noisy_sampler_yields_projected_first_witness :
  (send (noisy_running (N := two_draws) (3 # 4) 42 [1 # 10; 1 # 2]%Q)
        (Some (1%Q, 1%Q))).1
  = Return (Some (0%Z, 1%Z, 3 # 4)).
Proof.
  apply (uniform_noisy_sampler_yields_projected_first
           (N := two_draws) (3 # 4) 42 [1 # 10; 1 # 2]%Q 1 1);
    reflexivity.
Defined.

(** ** Generator objects do not interfere *)

Section Interleaving.
Context {N : Numpy}.

Lemma of_side_cons_same {A} (side : bool) (a : A) l :
  of_side side ((side, a) :: l) = a :: of_side side l.
Proof. unfold of_side. simpl. rewrite eqb_reflx. reflexivity. Qed.

Lemma of_side_cons_other {A} (side : bool) (a : A) l :
  of_side side ((negb side, a) :: l) = of_side side l.
Proof. unfold of_side. simpl. by destruct side. Qed.

Lemma interleave_sides w r1 r2 g1 g2 steps :
  r1 <> r2 ->
  gen_store w !! r1 = Some g1 ->
  gen_store w !! r2 = Some g2 ->
  of_side true (interleave w r1 r2 steps) = drive g1 (of_side true steps)
  /\ of_side false (interleave w r1 r2 steps) = drive g2 (of_side false steps).
Proof.
  intros Hne. revert w g1 g2.
  induction steps as [|[side x] rest IH]; intros w g1 g2 H1 H2;
    [by split|].
  cbn [interleave]. unfold send_at.
  destruct side.
  - rewrite H1. destruct (send g1 (Some x)) as [o g1'] eqn:Hs.
    destruct (IH (update_gen w r1 g1') g1' g2) as [IH1 IH2].
    { simpl. apply lookup_insert_eq. }
    { simpl. by rewrite lookup_insert_ne. }
    rewrite !of_side_cons_same, drive_cons, Hs. cbn [fst snd].
    rewrite (of_side_cons_other false), (of_side_cons_other false).
    by rewrite IH1, IH2.
  - rewrite H2. destruct (send g2 (Some x)) as [o g2'] eqn:Hs.
    destruct (IH (update_gen w r2 g2') g1 g2') as [IH1 IH2].
    { simpl. by rewrite lookup_insert_ne. }
    { simpl. apply lookup_insert_eq. }
    rewrite !of_side_cons_same, drive_cons, Hs. cbn [fst snd].
    rewrite (of_side_cons_other true), (of_side_cons_other true).
    by rewrite IH1, IH2.
Qed.

End Interleaving.

(** C8. Two unbiased samplers built with the same seed and primed, living
    side by side and driven in any interleaving by the same sequence of
    inputs, give the same sequence of answers; that sequence is the function
    [uniform_trace] of the seed's stream and of the inputs alone. *)
Theorem uniform_sampler_reproducible {N : Numpy} (seed : Z) (w : world)
    (r1 r2 : ref) (steps : list (bool * (Q * Q))) :
  r1 <> r2 ->
  gen_store w !! r1 = Some (next (uniform_sampler seed)).2 ->
  gen_store w !! r2 = Some (next (uniform_sampler seed)).2 ->
  of_side true steps = of_side false steps ->
  of_side true (interleave w r1 r2 steps)
  = of_side false (interleave w r1 r2 steps)
  /\ of_side true (interleave w r1 r2 steps)
     = uniform_trace (RandomState seed) (of_side true steps).
Proof.
  intros Hne H1 H2 Hin.
  destruct (interleave_sides w r1 r2 _ _ steps Hne H1 H2) as [E1 E2].
  rewrite E1, E2, Hin. split; [reflexivity|].
  rewrite next_uniform_sampler. apply drive_uniform_running.
Qed.

Lemma uniform_sampler_reproducible_witness :
  of_side true (interleave two_samplers 0 1
                  [(true, (1, 3)); (false, (1, 3)); (false, (3, 1)); (true, (3, 1))]%Q)
  = [Return (Some (0%Z, 0%Z, 1%Q)); Return (Some (0%Z, 0%Z, 1%Q))].
Proof.
  apply (uniform_sampler_reproducible (N := two_draws) 7 two_samplers 0 1
           [(true, (1, 3)); (false, (1, 3)); (false, (3, 1)); (true, (3, 1))]%Q);
    [lia | reflexivity | reflexivity | reflexivity].
Defined.

(** ** Measurement gates *)

Section MeasurementFacts.
Context {E : Engine}.

Lemma deref_update_gate_eq w r f : deref (update_gate w r f) r = f (deref w r).
Proof. unfold deref at 1, update_gate; simpl. by rewrite lookup_insert_eq. Qed.

Lemma deref_update_gate_ne w r r' f :
  r <> r' -> deref (update_gate w r f) r' = deref w r'.
Proof.
  intros H. unfold deref, update_gate; simpl. by rewrite lookup_insert_ne.
Qed.

Lemma deref_update_gen w r g r' : deref (update_gen w r g) r' = deref w r'.
Proof. reflexivity. Qed.

Lemma Measurement_apply_to_eq w self r s bit rest g g' d p wt :
  involved_qubits (deref w self) = bit :: rest ->
  sampler (deref w self) = Some r ->
  gen_store w !! r = Some g ->
  send g (Some (peak_measurement s bit)) = (Return (Some (d, p, wt)), g') ->
  Measurement_apply_to w self s
  = Return (update_gate (update_gen w r g') self (append_measurement d),
            set_classical_probability (project_measurement s bit p)
              (classical_probability (project_measurement s bit p) * wt)%Q).
Proof.
  intros Hq Hs Hg Hsend. unfold Measurement_apply_to, send_to_sampler.
  rewrite Hq, Hs, Hg.
  destruct (peak_measurement s bit) as [p0 p1]. rewrite Hsend.
  reflexivity.
Qed.

Lemma Measurement_apply_to_raise w self r s bit rest g g' e :
  involved_qubits (deref w self) = bit :: rest ->
  sampler (deref w self) = Some r ->
  gen_store w !! r = Some g ->
  send g (Some (peak_measurement s bit)) = (Raise e, g') ->
  Measurement_apply_to w self s = Raise e.
Proof.
  intros Hq Hs Hg Hsend. unfold Measurement_apply_to, send_to_sampler.
  rewrite Hq, Hs, Hg.
  destruct (peak_measurement s bit) as [p0 p1]. rewrite Hsend.
  reflexivity.
Qed.

End MeasurementFacts.

(** C2. Applying a measurement gate to a state peeks [(p0, p1)] of its
    qubit without changing the state, sends the pair once to its sampler,
    and, when the sampler answers [(declared, projected, weight)], appends
    [declared] to the gate's outcome history, projects the qubit onto
    [projected] and multiplies the running classical probability of the
    projected state by [weight]; the sampler is left as that one send left
    it, and nothing else in the store changes. *)
Theorem Measurement_apply_to_contract {E : Engine} (w : world) (self r : ref)
    (s : sdm) (bit : string) (rest : list string) (g g' : generator)
    (declared projected : Z) (weight : Q) :
  involved_qubits (deref w self) = bit :: rest ->
  sampler (deref w self) = Some r ->
  gen_store w !! r = Some g ->
  send g (Some (peak_measurement s bit))
    = (Return (Some (declared, projected, weight)), g') ->
  exists w' s',
    Measurement_apply_to w self s = Return (w', s')
    /\ measurements (deref w' self) = measurements (deref w self) ++ [declared]
    /\ deref w' self = append_measurement declared (deref w self)
    /\ s' = set_classical_probability (project_measurement s bit projected)
              (classical_probability (project_measurement s bit projected)
               * weight)%Q
    /\ gen_store w' !! r = Some g'
    /\ (forall r', r' <> r -> gen_store w' !! r' = gen_store w !! r')
    /\ (forall r', r' <> self -> deref w' r' = deref w r').
Proof.
  intros Hq Hs Hg Hsend. eexists _, _. split.
  { eapply Measurement_apply_to_eq; eassumption. }
  rewrite deref_update_gate_eq, deref_update_gen.
  repeat split.
  - simpl. apply lookup_insert_eq.
  - intros r' Hne. simpl. by rewrite lookup_insert_ne.
  - intros r' Hne. by rewrite deref_update_gate_ne.
Qed.

Lemma Measurement_apply_to_contract_witness :
  exists w' s',
    Measurement_apply_to (E := toy_engine) noisy_measurement 1
      ((1%Q, 1%Q), 1%Q) = Return (w', s')
    /\ measurements (deref w' 1) = [0%Z]
    /\ s' = ((0%Q, 1%Q), (1 * (3 # 4))%Q).
Proof.
  destruct (Measurement_apply_to_contract (E := toy_engine)
              noisy_measurement 1 0 ((1%Q, 1%Q), 1%Q) "q" []
              (noisy_running (N := two_draws) (3 # 4) 42 [1 # 10; 1 # 2]%Q)
              (noisy_running (N := two_draws) (3 # 4) 42 []%Q)
              0 1 (3 # 4))
    as (w' & s' & Hrun & Hm & _ & Hs & _);
    [reflexivity | reflexivity | reflexivity | reflexivity |].
  exists w', s'. split; [exact Hrun|]. split; [exact Hm | exact Hs].
Defined.

(** With the noisy-readout sampler and a flipped readout, the gate records
    the true outcome 0 as declared and the state is projected onto 1. *)
Example noisy_readout_swapped :
  (fun ws : world * (Q * Q * Q) => (measurements (deref ws.1 1), ws.2.1))
    <$> Measurement_apply_to (E := toy_engine) noisy_measurement 1
          ((1%Q, 1%Q), 1%Q)
  = Return ([0%Z], (0%Q, 1%Q)).
Proof. reflexivity. Qed.

(** ** Construction without a sampler *)

Section DefaultSampler.
Context {N : Numpy} {E : Engine}.

Lemma Measurement_default w bit time :
  Measurement w bit time VNone
  = Return (update_gen (alloc_gen w (uniform_sampler default_seed)).1
              (next_ref w)
              (uniform_running default_seed (RandomState default_seed)),
            {| cls := ClsMeasurement; is_measurement := true; time := time;
               label := "$\circ\!\!\!\!\!\!\!\nearrow$";
               involved_qubits := [bit]; annotation := None;
               method_name := None; method_params := [];
               damping := None; sampler := Some (next_ref w);
               measurements := [] |}).
Proof.
  unfold Measurement, prime. simpl. rewrite lookup_insert_eq. reflexivity.
Qed.

Lemma replay_uniform w self r bit rest seed s states :
  involved_qubits (deref w self) = bit :: rest ->
  sampler (deref w self) = Some r ->
  gen_store w !! r = Some (uniform_running seed s) ->
  (fun w' => measurements (deref w' self)) <$> replay_measurement w self states
  = (fun l => measurements (deref w self) ++ l)
      <$> declared_trace s ((fun st => peak_measurement st bit) <$> states).
Proof.
  revert w s. induction states as [|st states IH]; intros w s Hq Hs Hg.
  { simpl. by rewrite app_nil_r. }
  cbn [replay_measurement for_each fmap list_fmap declared_trace].
  pose proof (send_uniform_running seed s (peak_measurement st bit).1
                (peak_measurement st bit).2) as Hsend.
  destruct (peak_measurement st bit) as [p0 p1] eqn:Hpk; cbn [fst snd] in Hsend.
  destruct (random_sample s) as [d s'] eqn:Hd; cbn [fst snd] in Hsend.
  destruct (Qeq_bool (p0 + p1) 0).
  - erewrite Measurement_apply_to_raise; eauto.
    rewrite Hpk. exact Hsend.
  - erewrite Measurement_apply_to_eq; eauto; [|rewrite Hpk; exact Hsend].
    cbn [mbind result_bind fst].
    fold (replay_measurement
            (update_gate (update_gen w r (uniform_running seed s')) self
               (append_measurement (outcome d p0 p1))) self states).
    rewrite (IH _ s').
    + rewrite deref_update_gate_eq, deref_update_gen.
      destruct (declared_trace s' _) as [e|l]; [reflexivity|].
      simpl. by rewrite <- app_assoc.
    + by rewrite deref_update_gate_eq, deref_update_gen.
    + by rewrite deref_update_gate_eq, deref_update_gen.
    + simpl. apply lookup_insert_eq.
Qed.

Lemma measure_run_trace w bit time states :
  measure_run w bit time states
  = declared_trace (RandomState default_seed)
      ((fun st => peak_measurement st bit) <$> states).
Proof.
  unfold measure_run, instantiate. rewrite Measurement_default.
  cbn [mbind result_bind alloc_gate].
  match goal with
  | |- context [replay_measurement ?w0 ?self states] =>
      assert (Hd : deref w0 self
                   = {| cls := ClsMeasurement; is_measurement := true;
                        time := time;
                        label := "$\circ\!\!\!\!\!\!\!\nearrow$";
                        involved_qubits := [bit]; annotation := None;
                        method_name := None; method_params := [];
                        damping := None; sampler := Some (next_ref w);
                        measurements := [] |})
        by (unfold deref; simpl; by rewrite lookup_insert_eq);
      pose proof (replay_uniform w0 self (next_ref w) bit [] default_seed
                    (RandomState default_seed) states) as H
  end.
  rewrite Hd in H. simpl in H. specialize (H eq_refl eq_refl).
  rewrite lookup_insert_eq in H. specialize (H eq_refl).
  destruct (replay_measurement _ _ states) as [e|w2];
    destruct (declared_trace _ _) as [e'|l]; simpl in H |- *; congruence.
Qed.

End DefaultSampler.

(** C10 (amended). A measurement constructed with [None] as sampler gets a
    fresh unbiased sampler seeded with 42, already primed; so two runs that
    each construct such a measurement and replay it against states with the
    same sequence of peeked [(p0, p1)] record the same declared outcomes (or
    stop with the same exception). *)
Theorem Measurement_default_sampler {N : Numpy} {E : Engine}
    (w1 w2 : world) (bit1 bit2 : string) (time1 time2 : Q)
    (states1 states2 : list sdm) :
  (fun st => peak_measurement st bit1) <$> states1
    = (fun st => peak_measurement st bit2) <$> states2 ->
  (exists w' m, Measurement w1 bit1 time1 VNone = Return (w', m)
     /\ sampler m = Some (next_ref w1)
     /\ gen_store w' !! next_ref w1 = Some (next (uniform_sampler 42)).2
     /\ measurements m = [])
  /\ measure_run w1 bit1 time1 states1 = measure_run w2 bit2 time2 states2.
Proof.
  intros Hpeeks. split.
  - eexists _, _. rewrite Measurement_default. split; [reflexivity|].
    split; [reflexivity|]. split; [|reflexivity].
    simpl. apply lookup_insert_eq.
  - rewrite !measure_run_trace. by rewrite Hpeeks.
Qed.

Lemma Measurement_default_sampler_witness :
  measure_run (N := two_draws) (E := toy_engine) empty_world "a" 20
    [((1%Q, 3%Q), 1%Q); ((1%Q, 3%Q), 1%Q)]
  = measure_run (N := two_draws) (E := toy_engine) two_samplers "b" 5
    [((1%Q, 3%Q), 1 # 2); ((1%Q, 3%Q), 1 # 3)].
Proof.
  apply (Measurement_default_sampler (N := two_draws) (E := toy_engine)
           empty_world two_samplers "a" "b" 20 5
           [((1%Q, 3%Q), 1%Q); ((1%Q, 3%Q), 1%Q)]
           [((1%Q, 3%Q), 1 # 2); ((1%Q, 3%Q), 1 # 3)]).
  reflexivity.
Defined.

(** C10 (as stated) fails where the sampler argument is omitted: the
    constructor has no default for it, and the call raises [TypeError]
    instead of installing a sampler. *)
Lemma Measurement_sampler_omitted :
  add_gate (N := two_draws) empty_world (Circuit "Unnamed circuit")
    (GTClass ClsMeasurement) [VStr "a"; VNum 20] = Raise "TypeError"
  /\ forall st, add_gate (N := two_draws) empty_world (Circuit "Unnamed circuit")
                  (GTClass ClsMeasurement) [VStr "a"; VNum 20] <> Return st.
Proof. split; [reflexivity|]. intros st. vm_compute. discriminate. Qed.

(** ** Adding gates by name *)

Lemma gate_classes_names (s : string) :
  is_Some (gate_classes !! s)
  <-> s ∈ ["cphase"; "hadamard"; "amp_ph_damping"; "measurement"].
Proof.
  unfold gate_classes. rewrite <- elem_of_dom, dom_list_to_map_L.
  simpl. set_solver.
Qed.

(** C6 (amended). Adding a gate under a string that is not a key of
    [gate_classes] fails with a [KeyError], before any gate is built. *)
Theorem add_gate_unknown_name {N : Numpy} (w : world) (c : circuit)
    (s : string) (args : list pyval) :
  gate_classes !! s = None ->
  add_gate w c (GTName s) args = Raise "KeyError".
Proof. intros H. unfold add_gate. by rewrite H. Qed.

Lemma add_gate_unknown_name_witness :
  add_gate (N := two_draws) empty_world (Circuit "Unnamed circuit")
    (GTName "toffoli") [VStr "a"; VNum 0] = Raise "KeyError".
Proof.
  apply (add_gate_unknown_name (N := two_draws)). reflexivity.
Defined.

(** C6 (as stated) fails: the unknown name ["toffoli"] does not give a
    [ConfigurationError]. *)
Lemma add_gate_unknown_name_not_ConfigurationError :
  gate_classes !! "toffoli" = None
  /\ add_gate (N := two_draws) empty_world (Circuit "Unnamed circuit")
       (GTName "toffoli") [VStr "a"; VNum 0] <> Raise "ConfigurationError".
Proof. split; [reflexivity|]. vm_compute. discriminate. Qed.

(** ** Sorting by timestamp *)

Section Sorting.
Context {A : Type} (key : A -> Q).

Lemma insert_by_perm x l : insert_by key x l ≡ₚ x :: l.
Proof.
  induction l as [|y l IH]; [reflexivity|]. simpl.
  destruct (Qle_bool (key x) (key y)); [reflexivity|].
  rewrite IH. apply Permutation_swap.
Qed.

Lemma sorted_perm l : sorted key l ≡ₚ l.
Proof.
  induction l as [|x l IH]; [reflexivity|]. simpl.
  by rewrite insert_by_perm, IH.
Qed.

Lemma length_sorted l : length (sorted key l) = length l.
Proof. apply Permutation_length, sorted_perm. Qed.

Lemma insert_by_sorted x l :
  StronglySorted (key_le key) l -> StronglySorted (key_le key) (insert_by key x l).
Proof.
  induction l as [|y l IH]; intros Hs; simpl.
  { repeat constructor. }
  destruct (Qle_bool (key x) (key y)) eqn:E.
  - apply Qle_bool_iff in E. constructor; [exact Hs|].
    apply StronglySorted_cons in Hs as [Hy _].
    constructor; [exact E|].
    eapply Forall_impl; [exact Hy|]. intros z Hz. unfold key_le in *.
    by eapply Qle_trans.
  - apply StronglySorted_cons in Hs as [Hy Hl].
    constructor; [by apply IH|].
    rewrite insert_by_perm. constructor; [|exact Hy].
    unfold key_le. apply Qlt_le_weak, Qnot_le_lt. intros H.
    apply Qle_bool_iff in H. congruence.
Qed.

Lemma sorted_StronglySorted l : StronglySorted (key_le key) (sorted key l).
Proof.
  induction l as [|x l IH]; simpl; [constructor|].
  by apply insert_by_sorted.
Qed.



End Sorting.

(** ** Numbering and chains *)

Lemma enumerate_lookup {A} (l : list A) (i j : nat) (x : A) :
  enumerate l !! i = Some (j, x) <-> j = i /\ l !! i = Some x.
Proof.
  unfold enumerate. rewrite lookup_zip_with_Some. split.
  - intros (a & b & E & Ha & Hb). inversion E; subst.
    apply lookup_seq in Ha as [-> _]. by split.
  - intros [-> H]. exists i, x. split; [reflexivity|]. split; [|exact H].
    apply lookup_seq. split; [reflexivity|]. by eapply lookup_lt_Some.
Qed.

Lemma length_enumerate {A} (l : list A) : length (enumerate l) = length l.
Proof.
  unfold enumerate. rewrite length_zip_with_r_eq; [done|].
  by rewrite length_seq.
Qed.

Lemma filter_numbered (f : ref -> bool) (k : nat) (l : list ref) :
  let idx := (List.filter (fun ng => f ng.2) (zip (seq k (length l)) l)).*1 in
  StronglySorted lt idx
  /\ forall i, i ∈ idx <-> k <= i /\ exists r, l !! (i - k) = Some r /\ f r = true.
Proof.
  revert k. induction l as [|x l IH]; intros k; cbn zeta.
  { split; [constructor|]. intros i. split.
    - intros H. by apply elem_of_nil in H.
    - intros (_ & r & H & _). by rewrite lookup_nil in H. }
  destruct (IH (S k)) as [IHs IHm]. cbn zeta in IHs, IHm.
  cbn [length seq zip zip_with List.filter snd].
  assert (Hrest : forall i, i ∈ (List.filter (fun ng => f ng.2)
                                    (zip (seq (S k) (length l)) l)).*1 ->
                            k < i).
  { intros i Hi. apply IHm in Hi. lia. }
  assert (Hshift : forall i, S k <= i ->
            (x :: l) !! (i - k) = l !! (i - S k)).
  { intros i Hi. replace (i - k) with (S (i - S k)) by lia. reflexivity. }
  split.
  - destruct (f x); [|exact IHs].
    cbn [fmap list_fmap fst]. constructor; [exact IHs|].
    apply Forall_forall. intros i Hi. by apply Hrest.
  - intros i. destruct (f x) eqn:Ef.
    + cbn [fmap list_fmap fst]. rewrite elem_of_cons, IHm. split.
      * intros [->|(Hk & r & Hr & Hf)].
        -- split; [lia|]. exists x. rewrite Nat.sub_diag. by split.
        -- split; [lia|]. exists r. by rewrite Hshift.
      * intros (Hk & r & Hr & Hf).
        destruct (decide (i = k)) as [->|Hne]; [by left|right].
        split; [lia|]. exists r. rewrite <- Hshift by lia. by split.
    + rewrite IHm. split.
      * intros (Hk & r & Hr & Hf). split; [lia|]. exists r.
        by rewrite Hshift.
      * intros (Hk & r & Hr & Hf).
        destruct (decide (i = k)) as [->|Hne].
        { rewrite Nat.sub_diag in Hr. simpl in Hr. congruence. }
        split; [lia|]. exists r. rewrite <- Hshift by lia. by split.
Qed.

Lemma indices_where_spec (p : gate -> bool) (w : world) (l : list ref) :
  StronglySorted lt (indices_where p w (enumerate l))
  /\ forall i, i ∈ indices_where p w (enumerate l)
               <-> exists r, l !! i = Some r /\ p (deref w r) = true.
Proof.
  destruct (filter_numbered (fun r => p (deref w r)) 0 l) as [Hs Hm].
  split; [exact Hs|]. intros i. unfold indices_where, enumerate.
  rewrite (Hm i), Nat.sub_0_r. split; [tauto|]. intros H. split; [lia|done].
Qed.

Lemma consecutive_cons {A} (x y : A) l :
  consecutive (x :: y :: l) = (x, y) :: consecutive (y :: l).
Proof. reflexivity. Qed.

(** Consecutive elements of a sorted list are related, the first to the
    second. *)
Lemma consecutive_sorted {A} (R : relation A) (l : list A) (a b : A) :
  StronglySorted R l -> (a, b) ∈ consecutive l -> R a b /\ a ∈ l /\ b ∈ l.
Proof.
  induction l as [|x [|y l] IH]; intros Hs Hin.
  - by apply elem_of_nil in Hin.
  - by apply elem_of_nil in Hin.
  - rewrite consecutive_cons in Hin. apply elem_of_cons in Hin as [E|Hin].
    + inversion E; subst. apply StronglySorted_cons in Hs as [Hx _].
      split; [by inversion Hx|]. split; [left|right; left].
    + apply StronglySorted_cons in Hs as [_ Hs].
      destruct (IH Hs Hin) as (? & ? & ?). split; [done|].
      split; by right.
Qed.

(** ** The dependency dictionary *)

Lemma lookup_add_edge (d : gmap nat (gset nat)) (e : nat * nat) (k : nat) :
  add_edge d e !! k
  = if decide (e.2 = k) then (fun s => s ∪ {[e.1]}) <$> d !! e.2 else d !! k.
Proof. unfold add_edge. apply lookup_alter. Qed.

Lemma foldl_add_edge (d : gmap nat (gset nat)) (es : list (nat * nat)) (k : nat) :
  match foldl add_edge d es !! k, d !! k with
  | Some s', Some s => forall g1, g1 ∈ s' <-> g1 ∈ s \/ (g1, k) ∈ es
  | None, None => True
  | _, _ => False
  end.
Proof.
  revert d. induction es as [|[a b] es IH]; intros d.
  { simpl. destruct (d !! k); [|done]. intros g1. rewrite elem_of_nil. tauto. }
  cbn [foldl]. specialize (IH (add_edge d (a, b))).
  rewrite lookup_add_edge in IH. cbn [fst snd] in IH.
  destruct (foldl add_edge (add_edge d (a, b)) es !! k) as [s'|];
    destruct (decide (b = k)) as [->|Hne];
    destruct (d !! k) as [s|]; simpl in IH; try done.
  - intros g1. rewrite IH, elem_of_union, elem_of_singleton, elem_of_cons.
    split; [intros [[?| ->]|?]|intros [?|[E|?]]]; auto.
    inversion E; auto.
  - intros g1. rewrite IH, elem_of_cons.
    split; [intros [?|?]|intros [?|[E|?]]]; auto.
    inversion E; congruence.
Qed.

Lemma foldl_chains {B} (f : B -> list (nat * nat)) (d : gmap nat (gset nat))
    (bs : list B) :
  foldl (fun d b => foldl add_edge d (f b)) d bs
  = foldl add_edge d (mjoin (f <$> bs)).
Proof.
  revert d. induction bs as [|b bs IH]; intros d; [reflexivity|].
  cbn [foldl fmap list_fmap mjoin list_join]. by rewrite foldl_app, IH.
Qed.

Lemma lookup_no_dependencies (k : nat) (l : list ref) (j : nat) :
  (list_to_map ((fun ng : nat * ref => (ng.1, (∅ : gset nat)))
                  <$> zip (seq k (length l)) l) : gmap nat (gset nat)) !! j
  = if decide (k <= j < k + length l) then Some ∅ else None.
Proof.
  revert k. induction l as [|x l IH]; intros k.
  { simpl. rewrite lookup_empty. case_decide; [lia|done]. }
  cbn [length seq zip_with fmap list_fmap list_to_map foldr fst].
  rewrite lookup_insert, IH. repeat case_decide; try done; lia.
Qed.

Lemma dependencies_spec (w : world) (c : circuit) (g2 : nat) :
  match dependencies w c !! g2 with
  | Some s =>
      g2 < length (gates c)
      /\ forall g1, g1 ∈ s <->
           exists b, b ∈ qubits c /\ (g1, g2) ∈ consecutive (chain w c b)
  | None => length (gates c) <= g2
  end.
Proof.
  unfold dependencies. rewrite foldl_chains.
  match goal with
  | |- context [foldl add_edge ?d ?es !! g2] =>
      pose proof (foldl_add_edge d es g2) as H
  end.
  unfold numbered_gates, enumerate in H |- *.
  rewrite lookup_no_dependencies in H.
  destruct (foldl add_edge _ _ !! g2) as [s|]; case_decide; try done;
    rewrite length_sorted in *.
  - split; [lia|]. intros g1. rewrite H, elem_of_empty, list_elem_of_join.
    split.
    + intros [[]|(es & Hin & Hes)].
      apply list_elem_of_fmap in Hes as (b & -> & Hb). eauto.
    + intros (b & Hb & Hin). right. eexists. split; [exact Hin|].
      apply list_elem_of_fmap. eauto.
  - lia.
Qed.

(** ** Relabelling and reordering *)

Lemma set_annotation_twice a b g :
  set_annotation a (set_annotation b g) = set_annotation a g.
Proof. reflexivity. Qed.


Section Relabel.
Context (all_gates : list (nat * ref)).

Lemma annotate_eq k i j r w :
  all_gates !! i = Some (j, r) ->
  annotate all_gates (k, i) w
  = Return (update_gate w r (set_annotation (decimal k))).
Proof. intros H. unfold annotate. cbn [snd fst]. by rewrite H. Qed.








End Relabel.






(** ** Idle-interval synthesis: what the loop allocates *)

Lemma Qplus_comm_eq (x y : Q) : (x + y)%Q = (y + x)%Q.
Proof. unfold Qplus. f_equal; [lia | apply Pos.mul_comm]. Qed.

Lemma eps_t_pos : (0 < eps_t)%Q.
Proof. reflexivity. Qed.

Lemma py_max_ge (a b : Q) : (b <= py_max a b)%Q.
Proof.
  unfold py_max. destruct (Qltb a b) eqn:E; [apply Qle_refl|].
  by apply Qltb_ge.
Qed.

Lemma Qubit_clamped (name : string) (t1 t2 : Q) : clamped (Qubit name t1 t2).
Proof. split; apply py_max_ge. Qed.

Lemma py_div_defined (a b : Q) :
  (eps_t <= b)%Q -> py_div a b = Return (a / b)%Q.
Proof.
  intros H. unfold py_div. rewrite Qeq_bool_pos; [done|].
  eapply Qlt_le_trans; [apply eps_t_pos | exact H].
Qed.

Lemma last_gate_append c r : last_gate (append_gate c r) = Return r.
Proof. unfold last_gate, append_gate. simpl. by rewrite last_snoc. Qed.

Lemma add_gates_app st l1 l2 :
  add_gates st (l1 ++ l2) = add_gates (add_gates st l1) l2.
Proof. apply foldl_app. Qed.

Lemma consecutive_fmap {A B} (f : A -> B) (l : list A) :
  consecutive (f <$> l) = (fun p => (f p.1, f p.2)) <$> consecutive l.
Proof.
  induction l as [|x [|y l] IH]; [reflexivity..|].
  rewrite !fmap_cons, !consecutive_cons, fmap_cons, <- IH. reflexivity.
Qed.

Lemma last_fmap_default {A B} (f : A -> B) (l : list A) (d : A) :
  List.last (f <$> l) (f d) = f (List.last l d).
Proof. induction l as [|x [|y l] IH]; [reflexivity..|]. exact IH. Qed.

Lemma for_each_ext {A S} (f g : A -> S -> result S) l s :
  (forall a s, f a s = g a s) -> for_each f l s = for_each g l s.
Proof.
  intros H. revert s. induction l as [|a l IH]; intros s; [reflexivity|].
  simpl. rewrite H. destruct (g a s); [reflexivity|]. apply IH.
Qed.

Section Loop.
Context {N : Numpy}.

Lemma AmpPhDamp_clamped b t d :
  clamped b ->
  AmpPhDamp (str b) t d (t1 b) (t2 b) = Return (damping_channel b t d).
Proof.
  intros [H1 H2]. unfold AmpPhDamp.
  rewrite (py_div_defined _ _ H1), (py_div_defined _ _ H2). reflexivity.
Qed.

Lemma add_channel_eq b t d st :
  clamped b ->
  add_channel b t d st = Return (add_gates st [damping_channel b t d]).
Proof.
  intros Hb. unfold add_channel. rewrite (AmpPhDamp_clamped _ _ _ Hb).
  cbn [mbind result_bind alloc_gate add_gate]. unfold add_gate_instance.
  rewrite last_gate_append. reflexivity.
Qed.

Lemma add_channels_eq {A} b (f : A -> Q * Q) (l : list A) st :
  clamped b ->
  for_each (fun a => add_channel b (f a).1 (f a).2) l st
  = Return (add_gates st ((fun a => damping_channel b (f a).1 (f a).2) <$> l)).
Proof.
  intros Hb. revert st. induction l as [|a l IH]; intros st; [reflexivity|].
  cbn [for_each]. rewrite (add_channel_eq _ _ _ _ Hb).
  cbn [mbind result_bind]. rewrite IH, fmap_cons. reflexivity.
Qed.

Lemma wait_qubit_eq all_gates lo hi b st :
  clamped b ->
  wait_qubit all_gates lo hi b st
  = Return (add_gates st
              (idle_channels b
                 (time <$> List.filter (in_window lo hi b) all_gates) lo hi)).
Proof.
  intros Hb. unfold wait_qubit, idle_channels, gaps.
  destruct (List.filter (in_window lo hi b) all_gates) as [|g gts] eqn:E.
  { cbn [fmap list_fmap centred fst snd].
    rewrite (add_channel_eq _ _ _ _ Hb), (Qplus_comm_eq hi lo). reflexivity. }
  rewrite fmap_cons. rewrite <- fmap_cons.
  rewrite (last_fmap_default time (g :: gts) g).
  set (final := List.last (g :: gts) g).
  rewrite !fmap_app, !add_gates_app.
  assert (Hinit :
    (if Qltb micro (time g - lo)
     then add_channel b ((time g + lo) / 2)%Q (time g - lo)%Q st
     else Return st)
    = Return (add_gates st
        ((fun gap => damping_channel b (centred gap).1 (centred gap).2)
           <$> (if Qltb micro (time g - lo) then [(lo, time g)] else [])))).
  { destruct (Qltb micro (time g - lo)); [|reflexivity].
    rewrite (add_channel_eq _ _ _ _ Hb), (Qplus_comm_eq (time g) lo).
    reflexivity. }
  rewrite Hinit. cbn [mbind result_bind].
  set (st1 := add_gates st _).
  assert (Hfin :
    (if Qltb micro (hi - time final)
     then add_channel b ((time final + hi) / 2)%Q (hi - time final)%Q st1
     else Return st1)
    = Return (add_gates st1
        ((fun gap => damping_channel b (centred gap).1 (centred gap).2)
           <$> (if Qltb micro (hi - time final)
                then [(time final, hi)] else [])))).
  { destruct (Qltb micro (hi - time final)); [|reflexivity].
    by rewrite (add_channel_eq _ _ _ _ Hb). }
  rewrite Hfin. cbn [mbind result_bind].
  set (st2 := add_gates st1 _).
  rewrite consecutive_fmap, <- list_fmap_compose.
  etrans; [|exact (add_channels_eq b
                     (fun p : gate * gate => centred (time p.1, time p.2))
                     (consecutive (g :: gts)) st2 Hb)].
  apply for_each_ext. by intros [g1 g2] s.
Qed.

Lemma for_each_wait_qubit all_gates lo hi qs st :
  Forall clamped qs ->
  for_each (wait_qubit all_gates lo hi) qs st
  = Return (add_gates st
      (mjoin ((fun b => idle_channels b
                 (time <$> List.filter (in_window lo hi b) all_gates) lo hi)
              <$> qs))).
Proof.
  intros Hqs. revert st. induction Hqs as [|b qs Hb _ IH]; intros st;
    [reflexivity|].
  cbn [for_each]. rewrite (wait_qubit_eq _ _ _ _ _ Hb).
  cbn [mbind result_bind]. rewrite IH, fmap_cons.
  cbn [mjoin list_join]. by rewrite add_gates_app.
Qed.

(** The code runs to completion and allocates exactly the channels that
    the window and the qubits' operations call for. *)
Lemma add_waiting_gates_eq w c tmin tmax :
  Forall clamped (qubits c) ->
  add_waiting_gates w c tmin tmax
  = Return (match window w c tmin tmax with
            | Some (lo, hi) => add_gates (w, c) (synthesized w c lo hi)
            | None => (w, c)
            end).
Proof.
  intros Hqs. unfold add_waiting_gates, window, synthesized, ops_in_window.
  fold (chronological_gates w c).
  destruct (chronological_gates w c) as [|g all_gates'] eqn:E.
  - destruct tmin as [lo|], tmax as [hi|]; cbn; try reflexivity.
    apply for_each_wait_qubit, Hqs.
  - rewrite <- E. 
    assert (Hh : head (chronological_gates w c) = Some g) by (by rewrite E).
    destruct (last (chronological_gates w c)) as [g'|] eqn:El;
      [|by rewrite E, last_None in El].
    rewrite Hh. replace (is_empty (chronological_gates w c)) with false
      by (by rewrite E).
    cbn [andb fmap option_fmap option_map].
    destruct tmin as [lo|], tmax as [hi|]; cbn [mbind result_bind option_bind];
      apply for_each_wait_qubit, Hqs.
Qed.

End Loop.

Lemma deref_alloc_gate_eq w g : deref (alloc_gate w g).1 (next_ref w) = g.
Proof. unfold deref, alloc_gate. simpl. by rewrite lookup_insert_eq. Qed.

Lemma deref_alloc_gate_lt w g r :
  r < next_ref w -> deref (alloc_gate w g).1 r = deref w r.
Proof.
  intros H. unfold deref, alloc_gate. simpl.
  rewrite lookup_insert_ne; [done|lia].
Qed.

Lemma add_gates_spec w c gs :
  qubits (add_gates (w, c) gs).2 = qubits c
  /\ title (add_gates (w, c) gs).2 = title c
  /\ gates (add_gates (w, c) gs).2 = gates c ++ seq (next_ref w) (length gs)
  /\ next_ref (add_gates (w, c) gs).1 = next_ref w + length gs
  /\ gen_store (add_gates (w, c) gs).1 = gen_store w
  /\ (forall r, r < next_ref w -> deref (add_gates (w, c) gs).1 r = deref w r)
  /\ deref (add_gates (w, c) gs).1 <$> seq (next_ref w) (length gs) = gs.
Proof.
  revert w c. induction gs as [|g gs IH]; intros w c.
  { simpl. rewrite app_nil_r. repeat split; try done; lia. }
  change (add_gates (w, c) (g :: gs))
    with (add_gates ((alloc_gate w g).1, append_gate c (next_ref w)) gs).
  destruct (IH (alloc_gate w g).1 (append_gate c (next_ref w)))
    as (Hq & Ht & Hg & Hn & Hs & Hold & Hnew).
  cbn [alloc_gate fst next_ref] in *.
  repeat split.
  - by rewrite Hq.
  - by rewrite Ht.
  - rewrite Hg. cbn [append_gate set_gates gates length seq].
    by rewrite <- app_assoc.
  - rewrite Hn. cbn [length]. lia.
  - by rewrite Hs.
  - intros r Hr. rewrite Hold by lia. by apply deref_alloc_gate_lt.
  - cbn [length seq]. rewrite fmap_cons, Hnew. f_equal.
    rewrite Hold by lia. apply deref_alloc_gate_eq.
Qed.

Lemma added_add_gates w c gs :
  added (add_gates (w, c) gs).1 c (add_gates (w, c) gs).2 = gs.
Proof.
  destruct (add_gates_spec w c gs) as (_ & _ & Hg & _ & _ & _ & Hnew).
  unfold added. by rewrite Hg, drop_app_length.
Qed.

(** ** The window *)






Lemma filter_times_sorted w (p : gate -> bool) (l : list ref) :
  StronglySorted (key_le (fun r => time (deref w r))) l ->
  StronglySorted Qle (time <$> List.filter p (deref w <$> l)).
Proof.
  induction 1 as [|r l Hl IH Hr]; [constructor|].
  rewrite fmap_cons. cbn [List.filter].
  assert (Hall : Forall (Qle (time (deref w r)))
                   (time <$> List.filter p (deref w <$> l))).
  { apply Forall_forall. intros t Ht.
    apply list_elem_of_fmap in Ht as (g & -> & Hg).
    apply list_elem_of_In, filter_In in Hg as [Hg _].
    apply list_elem_of_In, list_elem_of_fmap in Hg as (r' & -> & Hr').
    by eapply Forall_forall in Hr. }
  destruct (p (deref w r)); [|exact IH].
  rewrite fmap_cons. by constructor.
Qed.

(** The operations of a qubit in the window are listed chronologically and
    are the timestamps of the circuit's gates that involve the qubit and
    lie in the window. *)
Lemma ops_in_window_spec w c b lo hi :
  StronglySorted Qle (ops_in_window w c b lo hi)
  /\ Forall (fun t => (lo <= t)%Q /\ (t <= hi)%Q) (ops_in_window w c b lo hi)
  /\ forall t, t ∈ ops_in_window w c b lo hi
       <-> exists r, r ∈ gates c /\ time (deref w r) = t
                     /\ str b ∈ involved_qubits (deref w r)
                     /\ (lo <= t)%Q /\ (t <= hi)%Q.
Proof.
  unfold ops_in_window, chronological_gates.
  set (by_time := fun r => time (deref w r)).
  assert (Hin : forall g, g ∈ List.filter (in_window lo hi b)
                                 (deref w <$> sorted by_time (gates c))
                <-> (exists r, r ∈ gates c /\ g = deref w r)
                    /\ str b ∈ involved_qubits g
                    /\ (lo <= time g)%Q /\ (time g <= hi)%Q).
  { intros g. rewrite list_elem_of_In, filter_In, <- list_elem_of_In.
    rewrite list_elem_of_fmap. unfold in_window, involves_qubit.
    rewrite !andb_true_iff, bool_decide_eq_true, !Qle_bool_iff.
    setoid_rewrite (sorted_perm by_time (gates c)).
    split; intros ((r & ? & ?) & ? & ? & ?); eauto 10. }
  split; [|split].
  - apply filter_times_sorted, sorted_StronglySorted.
  - apply Forall_forall. intros t Ht.
    apply list_elem_of_fmap in Ht as (g & -> & Hg). apply Hin in Hg. tauto.
  - intros t. rewrite list_elem_of_fmap. split.
    + intros (g & -> & Hg). apply Hin in Hg as ((r & Hr & ->) & ?). eauto.
    + intros (r & Hr & <- & ?). exists (deref w r). split; [done|].
      apply Hin. eauto.
Qed.


Lemma example_clamped : Forall clamped (qubits example.2).
Proof. repeat constructor; vm_compute; discriminate. Defined.


(** ** Gaps and the channels over them *)



Lemma filter_none {A} (p : A -> bool) (l : list A) :
  (forall a, a ∈ l -> p a = true -> False) -> List.filter p l = [].
Proof.
  induction l as [|a l IH]; intros H; [reflexivity|]. simpl.
  destruct (p a) eqn:E.
  - exfalso. eapply H; [left|exact E].
  - apply IH. intros a' Ha'. apply H. by right.
Qed.




Lemma last_default_elem (l : list Q) (d : Q) :
  l <> [] -> List.last l d ∈ l.
Proof.
  induction l as [|x [|y l] IH]; intros Hne; [done|left|].
  right. by apply IH.
Qed.




Lemma gaps_cons first rest lo hi :
  gaps (first :: rest) lo hi
  = (if Qltb micro (first - lo) then [(lo, first)] else [])
    ++ (if Qltb micro (hi - List.last (first :: rest) first)
        then [(List.last (first :: rest) first, hi)] else [])
    ++ consecutive (first :: rest).
Proof. reflexivity. Qed.




Section Channels.
Context {N : Numpy}.


Lemma involves_own_channel b t d :
  involves_qubit (damping_channel b t d) (str b) = true.
Proof. unfold involves_qubit. apply bool_decide_eq_true. simpl. left. Qed.





Lemma idle_channels_qubit b ops lo hi g :
  g ∈ idle_channels b ops lo hi -> involved_qubits g = [str b].
Proof.
  unfold idle_channels. intros H.
  by apply list_elem_of_fmap in H as (gap & -> & _).
Qed.



End Channels.

Lemma StronglySorted_lookup {A} (R : relation A) (l : list A) i j a b :
  StronglySorted R l -> i < j -> l !! i = Some a -> l !! j = Some b -> R a b.
Proof.
  intros Hs. revert i j. induction Hs as [|x l Hl IH Hx]; intros i j Hij Hi Hj.
  { by rewrite lookup_nil in Hi. }
  destruct j as [|j]; [lia|]. destruct i as [|i].
  - injection Hi as ->. eapply Forall_forall in Hx; [exact Hx|].
    apply list_elem_of_lookup. by exists j.
  - apply (IH i j); [lia|done..].
Qed.

Lemma mjoin_cons {A} (l : list A) (ls : list (list A)) :
  mjoin (l :: ls) = l ++ mjoin ls.
Proof. reflexivity. Qed.

Section WholeCircuit.
Context {N : Numpy} (ops : qubit -> list Q) (lo hi : Q).
Hypothesis ops_sorted : forall b, StronglySorted Qle (ops b).




End WholeCircuit.




(** On whole timestamps nothing is rounded: for operations at 0, 10 and 21
    the channels computed in binary64 have the timestamps and durations of
    the exact ones, and they do not overlap. *)
Example binary64_whole_timestamps :
  Forall2 (fun g g' => (time g == time g')%Q
                       /\ (duration_of g == duration_of g')%Q)
    (Binary64.channels_of (Qubit "a" 1000 1000) Binary64.wholes)
    (idle_channels (N := two_draws) (Qubit "a" 1000 1000) [0; 10; 21]%Q 0 21)
  /\ exists g1 g2,
       Binary64.channels_of (Qubit "a" 1000 1000) Binary64.wholes = [g1; g2]
       /\ overlaps g1 g2 = false.
Proof.
  split.
  - vm_compute. repeat constructor.
  - eexists _, _. split; reflexivity.
Qed.

(** ** The whole pipeline on the example circuit *)

(** Synthesis, ordering and replay of the example against a state whose
    qubit is certainly 0: the fixed-selection sampler declares 1 and the
    classical probability keeps its value. *)
Example end_to_end :
  (st1 ← add_waiting_gates (N := two_draws) example.1 example.2 None None;
   st2 ← order (S := chronological) st1.1 st1.2;
   ws ← Circuit_apply_to (E := toy_engine) st2.1 st2.2 ((1%Q, 0%Q), 1%Q);
   Return (length (gates st2.2), measurements (deref ws.1 1),
           Qeq_bool (classical_probability ws.2) 1))
  = Return (7%nat, [1%Z], true).
Proof. vm_compute. reflexivity. Qed.

(** * Further properties of the code *)

(** ** Samplers *)

Section MoreSamplers.
Context {N : Numpy}.

Lemma send_uniform_running_None seed s :
  send (uniform_running seed s) None
  = (Raise "TypeError", finish (uniform_running seed s)).
Proof. reflexivity. Qed.

Lemma send_noisy_running_None re seed s :
  send (noisy_running re seed s) None
  = (Raise "TypeError", finish (noisy_running re seed s)).
Proof. reflexivity. Qed.

Lemma send_noisy_running_zero re seed s p0 p1 :
  (p0 + p1 == 0)%Q ->
  send (noisy_running re seed s) (Some (p0, p1))
  = (Raise "ZeroDivisionError", finish (noisy_running re seed s)).
Proof.
  intros Hz. unfold send, noisy_running, suspend; simpl.
  unfold noisy_turn, ratio. destruct (random_sample s) as [r s1].
  apply Qeq_bool_iff in Hz. by rewrite Hz.
Qed.

End MoreSamplers.

(** X9. The noisy-readout sampler, resumed with [(p0, p1)], [p0 + p1 > 0],
    takes two draws of its stream and yields [(proj, decl, prob)]: [proj] is
    0 or 1; when the second draw is below [readout_error] then
    [decl = 1 - proj] and [prob = readout_error], otherwise [decl = proj]
    and [prob = 1 - readout_error]. *)
Theorem uniform_noisy_sampler_law {N : Numpy} (re : Q) (seed : Z) (s : rng)
    (p0 p1 : Q) :
  (0 < p0 + p1)%Q ->
  let r' := (random_sample (random_sample s).2).1 in
  exists proj decl prob,
    send (noisy_running re seed s) (Some (p0, p1))
    = (Return (Some (proj, decl, prob)),
       noisy_running re seed (random_sample (random_sample s).2).2)
    /\ (proj = 0%Z \/ proj = 1%Z)
    /\ (((r' < re)%Q /\ decl = (1 - proj)%Z /\ prob = re)
        \/ ((re <= r')%Q /\ decl = proj /\ prob = (1 - re)%Q)).
Proof.
  intros Hpos r'. eexists _, _, _. split.
  { apply (send_noisy_running _ _ _ _ _ Hpos). }
  split.
  - unfold outcome. destruct (Qltb _ _); auto.
  - fold r'. destruct (Qltb r' re) eqn:E.
    + left. by apply Qltb_lt in E.
    + right. by apply Qltb_ge in E.
Qed.

Lemma uniform_noisy_sampler_law_witness :
  exists proj decl prob,
    (send (noisy_running (N := two_draws) (1 # 4) 42 [1 # 10; 1 # 2]%Q)
          (Some (1%Q, 1%Q))).1
    = Return (Some (proj, decl, prob))
    /\ decl = proj.
Proof.
  destruct (uniform_noisy_sampler_law (N := two_draws) (1 # 4) 42
              [1 # 10; 1 # 2]%Q 1 1)
    as (proj & decl & prob & Hsend & _ & [(Hlt & _)|(_ & Hd & _)]);
    [reflexivity | vm_compute in Hlt; discriminate |].
  exists proj, decl, prob. split; [by rewrite Hsend | exact Hd].
Defined.

(** X10. When [p0 + p1] is zero the unbiased and the noisy-readout sampler raise
    [ZeroDivisionError] and are finished: every later [send] raises
    [StopIteration]. *)
Theorem samplers_finished_by_zero_total {N : Numpy} (re : Q) (seed : Z) (s : rng)
    (p0 p1 : Q) (inputs : list (Q * Q)) :
  (p0 + p1 == 0)%Q ->
  (send (uniform_running seed s) (Some (p0, p1))).1 = Raise "ZeroDivisionError"
  /\ drive (send (uniform_running seed s) (Some (p0, p1))).2 inputs
     = (fun _ => Raise "StopIteration") <$> inputs
  /\ (send (noisy_running re seed s) (Some (p0, p1))).1
     = Raise "ZeroDivisionError"
  /\ drive (send (noisy_running re seed s) (Some (p0, p1))).2 inputs
     = (fun _ => Raise "StopIteration") <$> inputs.
Proof.
  intros Hz. rewrite send_uniform_running, (send_noisy_running_zero _ _ _ _ _ Hz).
  pose proof Hz as Hb. apply Qeq_bool_iff in Hb. rewrite Hb. cbn [fst snd].
  split; [done|]. split; [by apply drive_finished|].
  split; [done|]. by apply drive_finished.
Qed.

Lemma samplers_finished_by_zero_total_witness :
  drive (send (uniform_running (N := two_draws) 42 [1 # 10; 1 # 2]%Q)
              (Some (1%Q, (-1)%Q))).2 [(1%Q, 1%Q)]
  = [Raise "StopIteration"].
Proof.
  apply (samplers_finished_by_zero_total (N := two_draws) 0 42
           [1 # 10; 1 # 2]%Q 1 (-1) [(1%Q, 1%Q)]).
  reflexivity.
Defined.

(** ** Measurement gates and their samplers *)

Lemma update_gen_same w r g : gen_store w !! r = Some g -> update_gen w r g = w.
Proof.
  intros H. destruct w as [gs gens n]. unfold update_gen. simpl in *.
  by rewrite insert_id.
Qed.

(** X5. A stateful sampler that is already primed cannot be given to another
    measurement: priming it again sends [None] into [p0, p1 = yield], and
    the construction raises [TypeError]. *)
Theorem Measurement_rejects_primed_sampler {N : Numpy} (w : world)
    (bit : string) (time : Q) (r : ref) (re : Q) (seed : Z) (s : rng) :
  gen_store w !! r = Some (uniform_running seed s)
  \/ gen_store w !! r = Some (noisy_running re seed s) ->
  Measurement w bit time (VGen r) = Raise "TypeError".
Proof.
  intros [H|H]; unfold Measurement, prime; cbn [truthy mbind result_bind];
    rewrite H.
  - by rewrite send_uniform_running_None.
  - by rewrite send_noisy_running_None.
Qed.

Lemma Measurement_rejects_primed_sampler_witness :
  Measurement (N := two_draws) two_samplers "a" 0 (VGen 0) = Raise "TypeError".
Proof.
  apply (Measurement_rejects_primed_sampler (N := two_draws) two_samplers
           "a" 0 0 0 7 [1 # 10; 1 # 2]%Q).
  left. reflexivity.
Defined.

(** X6. A primed fixed-selection sampler can be shared: constructing another
    measurement on it succeeds and leaves the store as it was. *)
Theorem Measurement_shares_selection_sampler {N : Numpy} (w : world)
    (bit : string) (time : Q) (r : ref) (result : Z) :
  gen_store w !! r = Some (selection_running result) ->
  exists m,
    Measurement w bit time (VGen r) = Return (w, m)
    /\ sampler m = Some r /\ measurements m = []
    /\ involved_qubits m = [bit] /\ is_measurement m = true.
Proof.
  intros H. eexists. unfold Measurement, prime.
  cbn [truthy mbind result_bind]. rewrite H, send_selection_running.
  cbn [mbind result_bind]. rewrite (update_gen_same _ _ _ H).
  split; [reflexivity|]. by repeat split.
Qed.

Lemma Measurement_shares_selection_sampler_witness :
  exists m,
    Measurement (N := two_draws) example.1 "b" 30 (VGen 0)
    = Return (example.1, m)
    /\ sampler m = Some 0%nat.
Proof.
  destruct (Measurement_shares_selection_sampler (N := two_draws) example.1
              "b" 30 0 1) as (m & Hm & Hs & _); [reflexivity|].
  exists m. split; [exact Hm | exact Hs].
Defined.

Section Replay.
Context {E : Engine}.

Lemma Measurement_apply_to_inv w self s w' s' :
  Measurement_apply_to w self s = Return (w', s') ->
  exists r g' d,
    w' = update_gate (update_gen w r g') self (append_measurement d).
Proof.
  unfold Measurement_apply_to, send_to_sampler.
  destruct (involved_qubits (deref w self)) as [|bit rest]; [done|].
  destruct (peak_measurement s bit) as [p0 p1].
  destruct (sampler (deref w self)) as [r|]; [|done].
  destruct (gen_store w !! r) as [g|] eqn:Hg; [|done].
  destruct (send g (Some (p0, p1))) as [[e|[[[d p] wt]|]] g']; try done.
  cbn [mbind result_bind]. intros [= <- <-]. by exists r, g', d.
Qed.

End Replay.

(** X7. Replaying a measurement gate never rewrites its history: each
    application appends one outcome, whatever the sampler; the gate's other
    attributes and every other gate stay as they are. *)
Theorem replay_measurement_appends {E : Engine} (w w' : world) (self : ref)
    (states : list sdm) :
  replay_measurement w self states = Return w' ->
  exists outcomes,
    length outcomes = length states
    /\ measurements (deref w' self) = measurements (deref w self) ++ outcomes
    /\ time (deref w' self) = time (deref w self)
    /\ involved_qubits (deref w' self) = involved_qubits (deref w self)
    /\ sampler (deref w' self) = sampler (deref w self)
    /\ annotation (deref w' self) = annotation (deref w self)
    /\ forall r, r <> self -> deref w' r = deref w r.
Proof.
  revert w. induction states as [|s states IH]; intros w H.
  { injection H as <-. exists []. by rewrite app_nil_r. }
  cbn [replay_measurement for_each] in H.
  destruct (Measurement_apply_to w self s) as [e|[w1 s1]] eqn:E1; [done|].
  cbn [mbind result_bind fst] in H.
  apply Measurement_apply_to_inv in E1 as (r0 & g' & d & ->).
  apply IH in H as (out & Hlen & Hm & Ht & Hq & Hs & Ha & Hother).
  rewrite deref_update_gate_eq, deref_update_gen in Hm, Ht, Hq, Hs, Ha.
  exists (d :: out). cbn [length]. split; [by rewrite Hlen|].
  split; [rewrite Hm; simpl; by rewrite <- app_assoc|].
  repeat split; try done.
  intros r Hr. rewrite (Hother r Hr).
  by rewrite deref_update_gate_ne, deref_update_gen.
Qed.

Lemma replay_measurement_appends_witness :
  exists outcomes,
    length outcomes = 2%nat
    /\ measurements
         (deref (update_gate
                   (update_gate example.1 1 (append_measurement 1)) 1
                   (append_measurement 1)) 1)
       = measurements (deref example.1 1) ++ outcomes.
Proof.
  destruct (replay_measurement_appends (E := toy_engine) example.1
              (update_gate (update_gate example.1 1 (append_measurement 1)) 1
                 (append_measurement 1))
              1 [((1%Q, 0%Q), 1%Q); ((0%Q, 1%Q), 1%Q)])
    as (out & Hlen & Hm & _); [vm_compute; reflexivity|].
  exists out. split; [exact Hlen | exact Hm].
Defined.

(** X8. A measurement gate on a fixed-selection sampler never fails, whatever
    the peeked probabilities (also when both vanish), and records the
    sampler's result once per application; the sampler stays as it is. *)
Theorem replay_with_selection_sampler {E : Engine} (w : world) (self r : ref)
    (bit : string) (rest : list string) (result : Z) (states : list sdm) :
  involved_qubits (deref w self) = bit :: rest ->
  sampler (deref w self) = Some r ->
  gen_store w !! r = Some (selection_running result) ->
  exists w',
    replay_measurement w self states = Return w'
    /\ measurements (deref w' self)
       = measurements (deref w self) ++ replicate (length states) result
    /\ gen_store w' = gen_store w.
Proof.
  revert w. induction states as [|s states IH]; intros w Hq Hs Hg.
  { exists w. split; [reflexivity|]. by rewrite app_nil_r. }
  cbn [replay_measurement for_each].
  erewrite Measurement_apply_to_eq; eauto using send_selection_running.
  cbn [mbind result_bind fst]. rewrite (update_gen_same _ _ _ Hg).
  destruct (IH (update_gate w self (append_measurement result)))
    as (w' & Hrun & Hm & Hgen).
  - by rewrite deref_update_gate_eq.
  - by rewrite deref_update_gate_eq.
  - exact Hg.
  - exists w'. split; [exact Hrun|]. split; [|exact Hgen].
    rewrite Hm, deref_update_gate_eq. simpl. by rewrite <- app_assoc.
Qed.

Lemma replay_with_selection_sampler_witness :
  exists w',
    replay_measurement (E := toy_engine) example.1 1
      [((0%Q, 0%Q), 1%Q); ((1%Q, 3%Q), 1%Q)] = Return w'
    /\ measurements (deref w' 1) = [1%Z; 1%Z].
Proof.
  destruct (replay_with_selection_sampler (E := toy_engine) example.1 1 0
              "a" [] 1 [((0%Q, 0%Q), 1%Q); ((1%Q, 3%Q), 1%Q)])
    as (w' & Hrun & Hm & _); [reflexivity..|].
  exists w'. split; [exact Hrun | exact Hm].
Defined.

(** ** Qubits and the registry of gates *)

(** X1. [Qubit] keeps the name, keeps a coherence time of at least [1e-10] and
    raises a smaller one (zero and negative ones too) to [1e-10]. *)
Theorem Qubit_clamps (n : string) (a b : Q) :
  name (Qubit n a b) = n
  /\ (eps_t <= t1 (Qubit n a b))%Q /\ (eps_t <= t2 (Qubit n a b))%Q
  /\ ((eps_t <= a)%Q -> t1 (Qubit n a b) = a)
  /\ ((a < eps_t)%Q -> t1 (Qubit n a b) = eps_t)
  /\ ((eps_t <= b)%Q -> t2 (Qubit n a b) = b)
  /\ ((b < eps_t)%Q -> t2 (Qubit n a b) = eps_t).
Proof.
  split; [reflexivity|]. split; [apply py_max_ge|]. split; [apply py_max_ge|].
  unfold Qubit, py_max; cbn [t1 t2].
  repeat split; intros H.
  - apply Qltb_ge in H. by rewrite H.
  - apply Qltb_lt in H. by rewrite H.
  - apply Qltb_ge in H. by rewrite H.
  - apply Qltb_lt in H. by rewrite H.
Qed.

Section AddGate.
Context {N : Numpy}.

Lemma prime_stores w r w' :
  prime w r = Return w' ->
  gate_store w' = gate_store w /\ next_ref w' = next_ref w.
Proof.
  unfold prime. destruct (gen_store w !! r) as [g|]; [|done].
  destruct (send g None) as [[e|v] g']; [done|].
  cbn [mbind result_bind]. intros [= <-]. by split.
Qed.

Lemma Measurement_stores w bit time v w' m :
  Measurement w bit time v = Return (w', m) ->
  gate_store w' = gate_store w /\ next_ref w <= next_ref w'
  /\ cls m = ClsMeasurement.
Proof.
  unfold Measurement. destruct (truthy v).
  - destruct v; try done. cbn [mbind result_bind].
    destruct (prime w r) as [e|w2] eqn:Hp; [done|].
    cbn [mbind result_bind]. intros [= <- <-].
    apply prime_stores in Hp as [-> ->]. by repeat split.
  - cbn [mbind result_bind alloc_gen].
    destruct (prime _ _) as [e|w2] eqn:Hp; [done|].
    cbn [mbind result_bind]. intros [= <- <-].
    apply prime_stores in Hp as [-> ->]. simpl. repeat split; lia.
Qed.

(** A successful constructor call allocates the new gate at a fresh
    reference and leaves the gates allocated before untouched. *)
Lemma instantiate_fresh cl args w w' r :
  instantiate cl args w = Return (w', r) ->
  next_ref w <= r /\ r < next_ref w'
  /\ cls (deref w' r) = cl
  /\ forall r', r' < next_ref w -> deref w' r' = deref w r'.
Proof.
  unfold instantiate.
  destruct (match cl, args with
            | ClsGate, [VNum t] => Return (w, Gate t)
            | ClsHadamard, [VStr b; VNum t] => Return (w, Hadamard b t)
            | ClsCPhase, [VStr b0; VStr b1; VNum t] => Return (w, CPhase b0 b1 t)
            | ClsAmpPhDamp, [VStr b; VNum t; VNum d; VNum t1; VNum t2] =>
                g ← AmpPhDamp b t d t1 t2; Return (w, g)
            | ClsMeasurement, [VStr b; VNum t; s] => Measurement w b t s
            | _, _ => Raise "TypeError"
            end) as [e|[w1 g]] eqn:Hc; [done|].
  cbn [mbind result_bind]. intros [= <- <-].
  change {| gate_store := <[next_ref w1:=g]> (gate_store w1);
            gen_store := gen_store w1; next_ref := S (next_ref w1) |}
    with (alloc_gate w1 g).1.
  assert (Hw1 : gate_store w1 = gate_store w /\ next_ref w <= next_ref w1
                /\ cls g = cl).
  { repeat match type of Hc with
           | context [match ?x with _ => _ end] =>
               is_var x; destruct x; try discriminate Hc
           end;
      try (injection Hc as <- <-; by repeat split);
      try (by apply Measurement_stores in Hc).
    unfold AmpPhDamp in Hc.
    destruct (py_div (- q0) q1) as [|x1]; [done|].
    destruct (py_div (- q0) q2) as [|x2]; [done|].
    injection Hc as <- <-. by repeat split. }
  destruct Hw1 as (Hgs & Hn & Hcls).
  split; [exact Hn|]. split; [simpl; lia|].
  split; [by rewrite deref_alloc_gate_eq|].
  intros r' Hr'. rewrite deref_alloc_gate_lt by lia.
  unfold deref. by rewrite Hgs.
Qed.

End AddGate.

(** X2. Whatever way a gate is handed to [add_gate] (a class with constructor
    arguments, a registered name, or an instance), a successful call appends
    exactly one reference to the circuit's gates and returns it; the qubits,
    the title and the gates allocated before are unchanged. A class or a
    name gives a freshly allocated gate of that class; an instance is
    appended as it is, so the same gate object can enter a circuit twice. *)
Theorem add_gate_appends {N : Numpy} (w w' : world) (c c' : circuit)
    (gt : gate_type) (args : list pyval) (r : ref) :
  gt <> GTOther ->
  add_gate w c gt args = Return (w', c', r) ->
  gates c' = gates c ++ [r]
  /\ qubits c' = qubits c /\ title c' = title c
  /\ (forall r', r' < next_ref w -> deref w' r' = deref w r')
  /\ match gt with
     | GTClass cl => next_ref w <= r /\ cls (deref w' r) = cl
     | GTName k => next_ref w <= r
                   /\ gate_classes !! k = Some (cls (deref w' r))
     | GTInstance g => r = g /\ w' = w
     | GTOther => False
     end.
Proof.
  intros Hne. destruct gt as [cl|k|g|]; [| | |done]; cbn [add_gate].
  - destruct (instantiate cl args w) as [e|[w1 g]] eqn:Hi; [done|].
    cbn [mbind result_bind]. unfold add_gate_instance.
    rewrite last_gate_append. cbn [mbind result_bind].
    rewrite last_gate_append. cbn [mbind result_bind].
    intros [= <- <- <-].
    apply instantiate_fresh in Hi as (? & _ & ? & ?). by repeat split.
  - destruct (gate_classes !! k) as [cl|] eqn:Hk; [|done].
    destruct (instantiate cl args w) as [e|[w1 g]] eqn:Hi; [done|].
    cbn [mbind result_bind]. rewrite last_gate_append.
    cbn [mbind result_bind]. intros [= <- <- <-].
    apply instantiate_fresh in Hi as (? & _ & -> & ?). by repeat split.
  - unfold add_gate_instance. rewrite last_gate_append.
    cbn [mbind result_bind]. intros [= <- <- <-]. by repeat split.
Qed.

Lemma add_gate_appends_witness :
  exists w' c' r,
    add_gate (N := two_draws) example.1 example.2 (GTName "hadamard")
      [VStr "b"; VNum 5] = Return (w', c', r)
    /\ gates c' = gates example.2 ++ [r].
Proof.
  destruct (add_gate (N := two_draws) example.1 example.2 (GTName "hadamard")
              [VStr "b"; VNum 5]) as [e|[[w' c'] r]] eqn:H;
    [vm_compute in H; discriminate|].
  exists w', c', r. split; [reflexivity|].
  apply (add_gate_appends (N := two_draws) example.1 w' example.2 c'
           (GTName "hadamard") [VStr "b"; VNum 5] r); [discriminate|exact H].
Defined.

(** ** Attribute lookup *)

Lemma prefix_drop_chars (p s : string) :
  String.prefix p s = true ->
  s = String.append p (drop_chars (String.length p) s).
Proof.
  revert s. induction p as [|a p IH]; intros s H.
  { by destruct s. }
  destruct s as [|b s]; [done|]. cbn [String.prefix] in H.
  destruct (Ascii.ascii_dec a b) as [<-|]; [|done].
  change (String a s = String a (String.append p
            (drop_chars (String.length p) s))).
  f_equal. by apply IH.
Qed.

Lemma prefix_append (p s : string) : String.prefix p (String.append p s) = true.
Proof.
  induction p as [|a p IH]; [by destruct s|].
  change (String.prefix (String a p) (String a (String.append p s)) = true).
  cbn [String.prefix]. by destruct (Ascii.ascii_dec a a).
Qed.

Lemma drop_chars_append (p s : string) :
  drop_chars (String.length p) (String.append p s) = s.
Proof. induction p as [|a p IH]; [by destruct s|]. exact IH. Qed.

(** X4. [circ.add_<name>] is [add_gate] bound to a gate class exactly when
    [<name>] is a registered gate name, and then to the class registered
    under it; every other attribute name, [add_gate], [add_qubit] and
    [add_waiting_gates] among them, gets the ordinary lookup. *)
Theorem Circuit_getattribute_partial (name : string) (cl : gate_class) :
  Circuit_getattribute name = PartialAddGate cl
  <-> exists k, name = String.append "add_" k /\ gate_classes !! k = Some cl.
Proof.
  unfold Circuit_getattribute. split.
  - destruct (String.prefix "add_" name) eqn:Hp; [|done].
    destruct (gate_classes !! drop_chars 4 name) as [cl'|] eqn:Hk; [|done].
    intros [= ->]. exists (drop_chars 4 name). split; [|done].
    by apply (prefix_drop_chars "add_").
  - intros (k & -> & Hk).
    rewrite prefix_append.
    rewrite (drop_chars_append "add_" k : drop_chars 4 _ = k). by rewrite Hk.
Qed.

(** X3. Adding a gate under a registered name does the same as adding it by the
    class registered under that name, which is also what [circ.add_<name>]
    does. *)
Theorem add_gate_by_name_as_by_class {N : Numpy} (w : world) (c : circuit)
    (k : string) (cl : gate_class) (args : list pyval) :
  gate_classes !! k = Some cl ->
  add_gate w c (GTName k) args = add_gate w c (GTClass cl) args
  /\ Circuit_getattribute (String.append "add_" k) = PartialAddGate cl.
Proof.
  intros Hk. split.
  - cbn [add_gate]. rewrite Hk.
    destruct (instantiate cl args w) as [e|[w1 g]]; [reflexivity|].
    cbn [mbind result_bind]. unfold add_gate_instance.
    rewrite last_gate_append. cbn [mbind result_bind].
    by rewrite last_gate_append.
  - unfold Circuit_getattribute. rewrite prefix_append.
    rewrite (drop_chars_append "add_" k : drop_chars 4 _ = k). by rewrite Hk.
Qed.

Lemma add_gate_by_name_as_by_class_witness :
  add_gate (N := two_draws) example.1 example.2 (GTName "cphase")
    [VStr "a"; VStr "b"; VNum 30]
  = add_gate (N := two_draws) example.1 example.2 (GTClass ClsCPhase)
      [VStr "a"; VStr "b"; VNum 30].
Proof.
  apply (add_gate_by_name_as_by_class (N := two_draws) example.1 example.2
           "cphase" ClsCPhase [VStr "a"; VStr "b"; VNum 30]).
  reflexivity.
Defined.

(** ** Ordering: edge cases *)

Lemma relabel_stray all_gates ps w :
  (exists ki, ki ∈ ps /\ length all_gates <= ki.2) ->
  for_each (annotate all_gates) ps w = Raise "IndexError".
Proof.
  revert w. induction ps as [|ki ps IH]; intros w (ki' & Hin & Hge).
  { by apply elem_of_nil in Hin. }
  cbn [for_each].
  destruct (all_gates !! ki.2) as [[j r]|] eqn:E.
  2:{ unfold annotate. by rewrite E. }
  rewrite (annotate_eq all_gates ki.1 ki.2 j r w E
             : annotate all_gates ki w = _)
    by (by destruct ki).
  cbn [mbind result_bind]. apply IH.
  apply elem_of_cons in Hin as [->|Hin]; [|by eauto].
  apply lookup_lt_Some in E. lia.
Qed.

(** X11. When the scheduler names an index that no gate has, [order] raises
    [IndexError] and the circuit is not reordered. *)
Theorem order_stray_index {S : Scheduler} (w : world) (c : circuit) (i : nat) :
  i ∈ schedule w c ->
  length (gates c) <= i ->
  order w c = Raise "IndexError".
Proof.
  intros Hin Hge. unfold order.
  rewrite relabel_stray; [reflexivity|].
  apply list_elem_of_lookup in Hin as [k Hk].
  exists (k, i). split.
  - apply list_elem_of_lookup. exists k. by apply enumerate_lookup.
  - cbn [snd]. unfold numbered_gates.
    by rewrite length_enumerate, length_sorted.
Qed.

Lemma order_stray_index_witness :
  order (S := stray_scheduler) example.1 example.2 = Raise "IndexError".
Proof.
  apply (order_stray_index (S := stray_scheduler) example.1 example.2 5).
  - vm_compute. left.
  - vm_compute. repeat constructor.
Defined.

Lemma chain_spec (w : world) (c : circuit) (b : qubit) (n : nat) :
  n ∈ chain w c b
  <-> exists r, sorted (fun r => time (deref w r)) (gates c) !! n = Some r
                /\ str b ∈ involved_qubits (deref w r).
Proof.
  destruct (indices_where_spec (fun g => involves_qubit g (str b)) w
              (sorted (fun r => time (deref w r)) (gates c))) as [_ Hm].
  etrans; [apply (Hm n)|].
  unfold involves_qubit. by setoid_rewrite bool_decide_eq_true.
Qed.

Lemma chain_sorted (w : world) (c : circuit) (b : qubit) :
  StronglySorted lt (chain w c b).
Proof.
  apply (indices_where_spec (fun g => involves_qubit g (str b)) w
           (sorted (fun r => time (deref w r)) (gates c))).
Qed.

(** X12. A gate that involves none of the circuit's registered qubits is left
    unconstrained: it is a node of the dependency dictionary with no
    predecessor, and no gate depends on it. *)
Theorem dependencies_unregistered (w : world) (c : circuit) (n : nat) (r : ref) :
  sorted (fun r => time (deref w r)) (gates c) !! n = Some r ->
  (forall b, b ∈ qubits c -> str b ∉ involved_qubits (deref w r)) ->
  dependencies w c !! n = Some ∅
  /\ forall g2 s, dependencies w c !! g2 = Some s -> n ∉ s.
Proof.
  intros Hn Hfree.
  assert (Hout : forall b, b ∈ qubits c -> n ∉ chain w c b).
  { intros b Hb Hin. apply chain_spec in Hin as (r' & Hr' & Hinv).
    rewrite Hn in Hr'. injection Hr' as <-. by apply (Hfree b). }
  split.
  - pose proof (dependencies_spec w c n) as Hd.
    destruct (dependencies w c !! n) as [s|].
    + destruct Hd as [_ Hd]. f_equal. apply set_eq. intros g1.
      rewrite Hd, elem_of_empty. split; [|done].
      intros (b & Hb & Hin).
      apply (consecutive_sorted lt _ _ _ (chain_sorted w c b)) in Hin
        as (_ & _ & Hin).
      by apply (Hout b).
    + apply lookup_lt_Some in Hn. rewrite length_sorted in Hn. lia.
  - intros g2 s Hs Hin. pose proof (dependencies_spec w c g2) as Hd.
    rewrite Hs in Hd. destruct Hd as [_ Hd].
    apply Hd in Hin as (b & Hb & Hin).
    apply (consecutive_sorted lt _ _ _ (chain_sorted w c b)) in Hin
      as (_ & Hin & _).
    by apply (Hout b).
Qed.

Lemma dependencies_unregistered_witness :
  dependencies example.1 (set_gates (Circuit "none") (gates example.2)) !! 1%nat
  = Some ∅.
Proof.
  apply (dependencies_unregistered example.1
           (set_gates (Circuit "none") (gates example.2)) 1 3).
  - reflexivity.
  - intros b Hb. by apply elem_of_nil in Hb.
Defined.

(** X13. The chronologically first gate depends on nothing, and every
    dependency points back in time: the timestamp of a predecessor is at
    most that of its dependent. *)
Theorem dependencies_point_back (w : world) (c : circuit) (g1 g2 : nat)
    (s : gset nat) (r1 r2 : ref) :
  dependencies w c !! g2 = Some s ->
  g1 ∈ s ->
  sorted (fun r => time (deref w r)) (gates c) !! g1 = Some r1 ->
  sorted (fun r => time (deref w r)) (gates c) !! g2 = Some r2 ->
  g1 < g2 /\ g2 <> 0%nat /\ (time (deref w r1) <= time (deref w r2))%Q.
Proof.
  intros Hs Hin H1 H2. pose proof (dependencies_spec w c g2) as Hd.
  rewrite Hs in Hd. destruct Hd as [_ Hd].
  apply Hd in Hin as (b & Hb & Hin).
  apply (consecutive_sorted lt _ _ _ (chain_sorted w c b)) in Hin as (Hlt & _).
  split; [exact Hlt|]. split; [lia|].
  apply (StronglySorted_lookup (key_le (fun r => time (deref w r))) _
           g1 g2 r1 r2 (sorted_StronglySorted _ _) Hlt H1 H2).
Qed.

Lemma dependencies_point_back_witness :
  (1 < 2)%nat /\ 2%nat <> 0%nat
  /\ (time (deref example.1 3) <= time (deref example.1 1))%Q.
Proof.
  apply (dependencies_point_back example.1 example.2 1 2 {[1%nat]} 3 1).
  - vm_compute. reflexivity.
  - apply elem_of_singleton. reflexivity.
  - reflexivity.
  - reflexivity.
Defined.

(** ** Idle-interval synthesis: shape and extent of the channels *)

Lemma gaps_within (ops : list Q) (lo hi : Q) :
  StronglySorted Qle ops ->
  Forall (fun t => (lo <= t)%Q /\ (t <= hi)%Q) ops ->
  (lo <= hi)%Q ->
  Forall (fun gap => (lo <= gap.1)%Q /\ (gap.1 <= gap.2)%Q /\ (gap.2 <= hi)%Q)
         (gaps ops lo hi).
Proof.
  intros Hs Hwin Hlh. destruct ops as [|first rest].
  { repeat constructor; simpl; lra. }
  rewrite gaps_cons. set (ops := first :: rest) in *.
  set (final := List.last ops first).
  assert (Hfinal : final ∈ ops) by (by apply last_default_elem).
  assert (Hin : forall t, t ∈ ops -> (lo <= t)%Q /\ (t <= hi)%Q).
  { intros t Ht. by eapply Forall_forall in Hwin. }
  assert (Hf : first ∈ ops) by left.
  apply Forall_app. split; [|apply Forall_app; split].
  - destruct (Qltb micro (first - lo)); repeat constructor; cbn [fst snd];
      destruct (Hin first Hf); lra.
  - destruct (Qltb micro (hi - final)); repeat constructor; cbn [fst snd];
      destruct (Hin final Hfinal); lra.
  - apply Forall_forall. intros [a b] Hab.
    apply (consecutive_sorted Qle) in Hab as (Hle & Ha & Hb); [|done].
    destruct (Hin a Ha), (Hin b Hb). cbn [fst snd]. repeat split; lra.
Qed.

Lemma gaps_length_cons g gs :
  gaps_length (g :: gs) = (g.2 - g.1 + gaps_length gs)%Q.
Proof. reflexivity. Qed.

Lemma last_default_any (l : list Q) (b d1 d2 : Q) :
  List.last (b :: l) d1 = List.last (b :: l) d2.
Proof.
  revert b. induction l as [|x l IH]; intros b; [reflexivity|].
  exact (IH x).
Qed.

Lemma consecutive_length (ops : list Q) (first : Q) :
  StronglySorted Qle ops ->
  head ops = Some first ->
  (gaps_length (consecutive ops) == List.last ops first - first)%Q.
Proof.
  revert first. induction ops as [|a [|b l] IH]; intros first Hs Hh; [done| |].
  - injection Hh as <-. simpl. lra.
  - injection Hh as <-. rewrite consecutive_cons.
    apply StronglySorted_cons in Hs as [_ Hs].
    specialize (IH b Hs eq_refl).
    change (List.last (a :: b :: l) a) with (List.last (b :: l) a).
    rewrite (last_default_any l b a b).
    rewrite gaps_length_cons. cbn [fst snd]. lra.
Qed.

Lemma gaps_length_app l1 l2 :
  (gaps_length (l1 ++ l2) == gaps_length l1 + gaps_length l2)%Q.
Proof.
  induction l1 as [|g l1 IH]; [simpl; lra|].
  change ((g :: l1) ++ l2) with (g :: (l1 ++ l2)).
  rewrite !gaps_length_cons. lra.
Qed.

Lemma integral_spec (t : Q) :
  integral t = true -> exists z : Z, (t == inject_Z z)%Q.
Proof.
  unfold integral. intros [Hd _]%andb_prop. apply Z.eqb_eq in Hd.
  exists (Qnum (Qred t)). rewrite <- (Qred_correct t) at 1.
  destruct (Qred t) as [n d]. cbn [Qden Qnum] in *.
  injection Hd as ->. reflexivity.
Qed.

(** Two whole numbers no more than [1e-6] apart are equal. *)
Lemma integral_close (a b : Q) :
  integral a = true -> integral b = true ->
  (a <= b)%Q -> (b - a <= micro)%Q -> (b == a)%Q.
Proof.
  intros [za Ha]%integral_spec [zb Hb]%integral_spec Hle Hgap.
  rewrite Ha, Hb in *. unfold Qle, Qeq, micro in *. simpl in *. lia.
Qed.

(** On whole timestamps a boundary gap that is skipped is empty, so the
    gaps of a qubit add up to the window. *)
Lemma gaps_length_integral (ops : list Q) (lo hi : Q) :
  StronglySorted Qle ops ->
  Forall (fun t => (lo <= t)%Q /\ (t <= hi)%Q) ops ->
  Forall (fun t => integral t = true) ops ->
  integral lo = true -> integral hi = true ->
  (gaps_length (gaps ops lo hi) == hi - lo)%Q.
Proof.
  intros Hs Hwin Hint Hlo Hhi. destruct ops as [|first rest].
  { cbn [gaps gaps_length foldr fst snd]. lra. }
  rewrite gaps_cons. set (ops := first :: rest) in *.
  set (final := List.last ops first).
  assert (Hin : forall t, t ∈ ops -> ((lo <= t)%Q /\ (t <= hi)%Q)
                                     /\ integral t = true).
  { intros t Ht. split; [by eapply Forall_forall in Hwin|].
    by eapply Forall_forall in Hint. }
  destruct (Hin first) as [[Hf1 Hf2] Hfi]; [left|].
  destruct (Hin final) as [[Hl1 Hl2] Hli]; [by apply last_default_elem|].
  pose proof (consecutive_length ops first Hs eq_refl) as Hmid.
  fold final in Hmid.
  rewrite !gaps_length_app, Hmid.
  destruct (Qltb micro (first - lo)) eqn:E1;
    destruct (Qltb micro (hi - final)) eqn:E2;
    rewrite ?gaps_length_cons; cbn [gaps_length foldr fst snd];
    try (apply Qltb_ge in E1;
         pose proof (integral_close lo first Hlo Hfi Hf1 E1));
    try (apply Qltb_ge in E2;
         pose proof (integral_close final hi Hli Hhi Hl2 E2));
    lra.
Qed.

Section Shape.
Context {N : Numpy}.

Lemma total_duration_idle_channels b ops lo hi :
  (total_duration (idle_channels b ops lo hi) == gaps_length (gaps ops lo hi))%Q.
Proof.
  unfold idle_channels. induction (gaps ops lo hi) as [|[x y] gs IH];
    [reflexivity|].
  rewrite fmap_cons. cbn [total_duration gaps_length foldr].
  fold (total_duration ((fun gap => damping_channel b (centred gap).1
                                      (centred gap).2) <$> gs)).
  fold (gaps_length gs). rewrite IH. reflexivity.
Qed.

Lemma gates_of_own b ops lo hi :
  gates_of b (idle_channels b ops lo hi) = idle_channels b ops lo hi.
Proof.
  unfold gates_of, idle_channels.
  induction (gaps ops lo hi) as [|gap gs IH]; [reflexivity|].
  rewrite fmap_cons. cbn [List.filter].
  by rewrite involves_own_channel, IH.
Qed.

Lemma gates_of_other b b' ops lo hi :
  str b <> str b' -> gates_of b (idle_channels b' ops lo hi) = [].
Proof.
  intros Hne. apply filter_none. intros g Hg Hinv.
  apply idle_channels_qubit in Hg. unfold involves_qubit in Hinv.
  apply bool_decide_eq_true in Hinv. rewrite Hg in Hinv.
  by apply list_elem_of_singleton in Hinv.
Qed.

Lemma gates_of_synthesized (ops : qubit -> list Q) lo hi b qs :
  NoDup (str <$> qs) -> b ∈ qs ->
  gates_of b (mjoin ((fun b' => idle_channels b' (ops b') lo hi) <$> qs))
  = idle_channels b (ops b) lo hi.
Proof.
  induction qs as [|b' qs IH]; intros Hnd Hb.
  { by apply elem_of_nil in Hb. }
  rewrite fmap_cons in Hnd. apply NoDup_cons in Hnd as [Hnot Hnd].
  rewrite fmap_cons, mjoin_cons. unfold gates_of. rewrite List.filter_app.
  fold (gates_of b (idle_channels b' (ops b') lo hi)).
  fold (gates_of b (mjoin ((fun b' => idle_channels b' (ops b') lo hi) <$> qs))).
  destruct (decide (str b = str b')) as [Heq|Hne].
  - assert (b = b') as <-.
    { apply elem_of_cons in Hb as [->|Hb]; [done|].
      exfalso. apply Hnot. rewrite <- Heq. by apply list_elem_of_fmap_2. }
    rewrite gates_of_own.
    assert (gates_of b (mjoin ((fun b' => idle_channels b' (ops b') lo hi)
                                 <$> qs)) = []) as ->; [|by rewrite app_nil_r].
    apply filter_none. intros g Hg Hinv.
    apply list_elem_of_join in Hg as (gs & Hg & Hgs).
    apply list_elem_of_fmap in Hgs as (b2 & -> & Hb2).
    apply idle_channels_qubit in Hg. unfold involves_qubit in Hinv.
    apply bool_decide_eq_true in Hinv. rewrite Hg in Hinv.
    apply list_elem_of_singleton in Hinv.
    apply Hnot. rewrite Hinv. by apply list_elem_of_fmap_2.
  - rewrite (gates_of_other _ _ _ _ _ Hne). cbn [app]. apply IH; [done|].
    apply elem_of_cons in Hb as [->|Hb]; [done|exact Hb].
Qed.

End Shape.

(** X14. On whole timestamps and window bounds (of magnitude at most [2^52],
    where the code's differences are exact), in a circuit whose qubits have
    distinct names, the channels that a synthesis appends for a qubit
    account for its whole window: their durations add up to [hi - lo]. *)
Theorem idle_time_accounted {N : Numpy} (w : world) (c : circuit)
    (tmin tmax : option Q) (lo hi : Q) (b : qubit) :
  Forall clamped (qubits c) ->
  NoDup (str <$> qubits c) ->
  Forall (fun r => integral (time (deref w r)) = true) (gates c) ->
  integral lo = true ->
  integral hi = true ->
  window w c tmin tmax = Some (lo, hi) ->
  b ∈ qubits c ->
  exists w' c',
    add_waiting_gates w c tmin tmax = Return (w', c')
    /\ (total_duration (gates_of b (added w' c c')) == hi - lo)%Q.
Proof.
  intros Hqs Hnd Hint Hlo Hhi Hw Hb.
  rewrite (add_waiting_gates_eq _ _ _ _ Hqs), Hw.
  eexists _, _. split; [f_equal; apply surjective_pairing|].
  rewrite added_add_gates. unfold synthesized.
  rewrite (gates_of_synthesized (fun b => ops_in_window w c b lo hi))
    by done.
  rewrite total_duration_idle_channels.
  destruct (ops_in_window_spec w c b lo hi) as (Hs & Hwin & Hops).
  apply gaps_length_integral; [done..| |done|done].
  apply Forall_forall. intros t Ht.
  apply Hops in Ht as (r & Hr & <- & _).
  by eapply Forall_forall in Hint.
Qed.

Lemma idle_time_accounted_witness :
  exists w' c',
    add_waiting_gates (N := two_draws) example.1 example.2 None None
      = Return (w', c')
    /\ (total_duration (gates_of (Qubit "b" 1000 1000)
                          (added w' example.2 c')) == 20 - 0)%Q.
Proof.
  destruct (idle_time_accounted (N := two_draws) example.1 example.2
              None None 0 20 (Qubit "b" 1000 1000))
    as (w' & c' & Hrun & Heq).
  - exact example_clamped.
  - apply (bool_decide_unpack _). vm_compute. exact I.
  - apply (bool_decide_unpack _). vm_compute. exact I.
  - reflexivity.
  - reflexivity.
  - reflexivity.
  - right. left.
  - exists w', c'. split; [exact Hrun | exact Heq].
Defined.

(** X15. Over a window with [lo <= hi], every gate that a synthesis appends is a
    decoherence channel of one of the circuit's qubits, carrying that
    qubit's coherence times, with a non-negative duration and a timestamp
    inside the window. *)
Theorem added_channels_shape {N : Numpy} (w : world) (c : circuit)
    (tmin tmax : option Q) (lo hi : Q) :
  Forall clamped (qubits c) ->
  window w c tmin tmax = Some (lo, hi) ->
  (lo <= hi)%Q ->
  exists w' c',
    add_waiting_gates w c tmin tmax = Return (w', c')
    /\ Forall (fun g =>
                 cls g = ClsAmpPhDamp /\ is_measurement g = false
                 /\ annotation g = None
                 /\ method_name g = Some "amp_ph_damping"
                 /\ (exists b, b ∈ qubits c /\ involved_qubits g = [str b]
                               /\ damping g = Some (duration_of g, t1 b, t2 b))
                 /\ (0 <= duration_of g)%Q
                 /\ (lo <= time g)%Q /\ (time g <= hi)%Q)
              (added w' c c').
Proof.
  intros Hqs Hw Hlh. rewrite (add_waiting_gates_eq _ _ _ _ Hqs), Hw.
  eexists _, _. split; [f_equal; apply surjective_pairing|].
  rewrite added_add_gates. unfold synthesized.
  apply Forall_forall. intros g Hg.
  apply list_elem_of_join in Hg as (gs & Hg & Hgs).
  apply list_elem_of_fmap in Hgs as (b & -> & Hb).
  unfold idle_channels in Hg.
  apply list_elem_of_fmap in Hg as ([x y] & -> & Hgap).
  destruct (ops_in_window_spec w c b lo hi) as (Hs & Hwin & _).
  pose proof (gaps_within _ lo hi Hs Hwin Hlh) as Hall.
  eapply Forall_forall in Hall; [|exact Hgap]. cbn [fst snd] in Hall.
  destruct Hall as (H1 & H2 & H3).
  split; [done|]. split; [done|]. split; [done|]. split; [done|].
  split; [by exists b|].
  split; [unfold duration_of, centred; simpl; lra|].
  unfold centred; cbn [time damping_channel fst snd].
  split; [apply Qle_shift_div_l; lra | apply Qle_shift_div_r; lra].
Qed.

Lemma added_channels_shape_witness :
  exists w' c',
    add_waiting_gates (N := two_draws) example.1 example.2 None None
      = Return (w', c')
    /\ Forall (fun g => cls g = ClsAmpPhDamp
                        /\ (0 <= time g)%Q /\ (time g <= 20)%Q)
              (added w' example.2 c').
Proof.
  destruct (added_channels_shape (N := two_draws) example.1 example.2
              None None 0 20) as (w' & c' & Hrun & Hall).
  - exact example_clamped.
  - reflexivity.
  - vm_compute. discriminate.
  - exists w', c'. split; [exact Hrun|].
    eapply Forall_impl; [exact Hall|]. intros g H.
    split; [apply H|]. split; apply H.
Defined.

(** X16. The window is not validated: with explicit bounds [tmax < tmin] every
    qubit counts as idle and gets one channel at the midpoint whose duration
    [tmax - tmin] is negative. *)
Theorem inverted_window {N : Numpy} (w : world) (c : circuit) (lo hi : Q) :
  Forall clamped (qubits c) ->
  (hi < lo)%Q ->
  exists w' c',
    add_waiting_gates w c (Some lo) (Some hi) = Return (w', c')
    /\ added w' c c'
       = (fun b => damping_channel b ((lo + hi) / 2) (hi - lo)) <$> qubits c
    /\ Forall (fun g => (duration_of g < 0)%Q) (added w' c c').
Proof.
  intros Hqs Hlt. rewrite (add_waiting_gates_eq _ _ _ _ Hqs).
  change (window w c (Some lo) (Some hi)) with (Some (lo, hi)).
  eexists _, _. split; [f_equal; apply surjective_pairing|].
  rewrite added_add_gates. unfold synthesized.
  assert (Hadd : forall qs,
            mjoin ((fun b => idle_channels b (ops_in_window w c b lo hi)
                               lo hi) <$> qs)
            = (fun b => damping_channel b ((lo + hi) / 2) (hi - lo)) <$> qs).
  { intros qs. induction qs as [|b qs IH]; [reflexivity|].
    rewrite !fmap_cons, mjoin_cons, IH.
    destruct (ops_in_window_spec w c b lo hi) as (_ & Hwin & _).
    destruct (ops_in_window w c b lo hi) as [|t ops]; [reflexivity|].
    exfalso. apply Forall_cons in Hwin as [[? ?] _]. lra. }
  rewrite Hadd. split; [reflexivity|].
  apply Forall_fmap, Forall_forall. intros b _.
  unfold duration_of. simpl. lra.
Qed.

Lemma inverted_window_witness :
  exists w' c',
    add_waiting_gates (N := two_draws) example.1 example.2 (Some 20%Q) (Some 0%Q)
      = Return (w', c')
    /\ Forall (fun g => (duration_of g < 0)%Q) (added w' example.2 c').
Proof.
  destruct (inverted_window (N := two_draws) example.1 example.2 20 0)
    as (w' & c' & Hrun & _ & Hneg).
  - exact example_clamped.
  - reflexivity.
  - exists w', c'. split; [exact Hrun | exact Hneg].
Defined.

(** ** Replay *)


Lemma Gate_apply_to_unitary {E : Engine} (w : world) (r : ref) (s : sdm) :
  cls (deref w r) <> ClsMeasurement ->
  Gate_apply_to w r s = (fun s' => (w, s')) <$> engine_call (deref w r) s.
Proof.
  intros Hc. unfold Gate_apply_to, engine_call.
  destruct (cls (deref w r)); [| | | |done];
    (destruct (method_name (deref w r)) as [m|]; [|reflexivity];
     by destruct (call_method s m _ _) as [e|s']).
Qed.

(** X18. Replaying a circuit that holds no measurement gate leaves the store
    untouched: every gate is applied, in list order, as the engine method it
    names, on its qubits and with its parameters, and a gate without a
    method name (a bare [Gate]) raises [AttributeError]. *)
Theorem Circuit_apply_to_unitary {E : Engine} (w : world) (c : circuit) (s : sdm) :
  Forall (fun r => cls (deref w r) <> ClsMeasurement) (gates c) ->
  Circuit_apply_to w c s
  = (fun s' => (w, s'))
      <$> for_each (fun r s => engine_call (deref w r) s) (gates c) s.
Proof.
  unfold Circuit_apply_to. intros H. revert s.
  induction H as [|r l Hr _ IH]; intros s; [reflexivity|].
  cbn [for_each fst snd]. rewrite (Gate_apply_to_unitary w r s Hr).
  destruct (engine_call (deref w r) s) as [e|s']; [reflexivity|].
  cbn [fmap result_fmap mbind result_bind]. apply IH.
Qed.

Lemma Circuit_apply_to_unitary_witness :
  Circuit_apply_to (E := toy_engine) example.1 (set_gates example.2 [2; 3]%nat)
    ((1%Q, 0%Q), 1%Q)
  = Return (example.1, ((1%Q, 0%Q), 1%Q)).
Proof.
  rewrite (Circuit_apply_to_unitary (E := toy_engine) example.1
             (set_gates example.2 [2; 3]%nat) ((1%Q, 0%Q), 1%Q)).
  - reflexivity.
  - repeat constructor; vm_compute; discriminate.
Defined.

(** ** Plotting *)

Lemma dict_get_set d k v k' :
  dict_get (dict_set d k v) k'
  = if String.eqb k k' then Return v else dict_get d k'.
Proof.
  induction d as [|[k0 v0] d IH]; cbn [dict_set dict_get].
  { by destruct (String.eqb k k'). }
  destruct (String.eqb_spec k0 k) as [->|Hne]; cbn [dict_get].
  - by destruct (String.eqb k k').
  - destruct (String.eqb_spec k0 k') as [->|Hne'].
    + destruct (String.eqb_spec k k') as [->|]; [done|reflexivity].
    + exact IH.
Qed.

Lemma dict_get_elem d k v :
  (k, v) ∈ d -> exists v', dict_get d k = Return v'.
Proof.
  induction d as [|[k0 v0] d IH]; intros H; [by apply elem_of_nil in H|].
  cbn [dict_get]. destruct (String.eqb_spec k0 k) as [->|Hne]; [by eexists|].
  apply elem_of_cons in H as [[= <- <-]|H]; [done|by apply IH].
Qed.

Lemma enumerate_snoc {A} (l : list A) (x : A) :
  enumerate (l ++ [x]) = enumerate l ++ [(length l, x)].
Proof.
  unfold enumerate. rewrite length_app. cbn [length].
  rewrite seq_app. cbn [seq]. rewrite Nat.add_0_l.
  rewrite zip_with_app by (by rewrite length_seq). reflexivity.
Qed.

Lemma coords_rows_list (l : list qubit) (k : string) :
  match dict_get
          (foldl (fun d nq => dict_set d (str nq.2) nq.1) [] (enumerate l)) k
  with
  | Return i =>
      (exists b, l !! i = Some b /\ str b = k)
      /\ forall j b', i < j -> l !! j = Some b' -> str b' <> k
  | Raise e => e = "KeyError" /\ k ∉ str <$> l
  end.
Proof.
  induction l as [|b l IH] using rev_ind.
  { simpl. split; [done|]. apply not_elem_of_nil. }
  rewrite enumerate_snoc, foldl_app. cbn [foldl fst snd].
  rewrite dict_get_set. destruct (String.eqb_spec (str b) k) as [Heq|Hne].
  - split.
    + exists b. split; [|done]. by rewrite lookup_app_r, Nat.sub_diag.
    + intros j b' Hj Hb'. apply lookup_lt_Some in Hb'.
      rewrite length_app in Hb'. simpl in Hb'. lia.
  - destruct (dict_get _ k) as [e|i].
    + destruct IH as [-> IH]. split; [done|].
      rewrite fmap_app. intros [H|H]%elem_of_app; [done|].
      apply list_elem_of_singleton in H. congruence.
    + destruct IH as [(b0 & Hb0 & Hk) IH]. split.
      * exists b0. split; [|done]. by apply lookup_app_l_Some.
      * intros j b' Hj Hb'.
        destruct (decide (j < length l)) as [Hlt|Hge].
        -- rewrite lookup_app_l in Hb' by done. by eapply IH.
        -- rewrite lookup_app_r in Hb' by lia.
           destruct (j - length l) as [|n]; simpl in Hb'; [|done].
           by injection Hb' as <-.
Qed.

(** X19. The row of a qubit name in the plot is the position of the last qubit
    of the circuit registered under that name (rows are not renumbered when
    a name is registered twice); looking up a name that no qubit has raises
    [KeyError]. *)
Theorem coords_rows (c : circuit) (k : string) :
  (forall i, dict_get (coords_of c) k = Return i
             <-> (exists b, qubits c !! i = Some b /\ str b = k)
                 /\ forall j b', i < j -> qubits c !! j = Some b' ->
                                 str b' <> k)
  /\ (dict_get (coords_of c) k = Raise "KeyError" <-> ~ registered c k).
Proof.
  pose proof (coords_rows_list (qubits c) k) as H. unfold coords_of, registered.
  destruct (dict_get _ k) as [e|i0].
  - destruct H as [-> Hnot]. split.
    + intros i. split; [done|]. intros [(b & Hb & Hk) _]. exfalso.
      apply Hnot. rewrite <- Hk. apply list_elem_of_fmap_2.
      apply list_elem_of_lookup. eauto.
    + done.
  - destruct H as [(b & Hb & Hk) Hlast]. split.
    + intros i. split.
      * intros [= <-]. split; [by exists b|exact Hlast].
      * intros [(b1 & Hb1 & Hk1) Hlast1]. f_equal.
        destruct (Nat.lt_trichotomy i0 i) as [Hlt|[->|Hlt]]; [|done|].
        -- by destruct (Hlast i b1 Hlt Hb1).
        -- by destruct (Hlast1 i0 b Hlt Hb).
    + split; [done|]. intros Hnot. exfalso. apply Hnot. rewrite <- Hk.
      apply list_elem_of_fmap_2. apply list_elem_of_lookup. eauto.
Qed.

Lemma dict_get_registered (c : circuit) (k : string) :
  (exists i, dict_get (coords_of c) k = Return i) <-> registered c k.
Proof.
  pose proof (coords_rows_list (qubits c) k) as H. unfold coords_of, registered.
  destruct (dict_get _ k) as [e|i].
  - destruct H as [_ H]. split; [by intros [i ?]|done].
  - destruct H as [(b & Hb & <-) _]. split; [|by eauto]. intros _.
    apply list_elem_of_fmap_2. apply list_elem_of_lookup. eauto.
Qed.

Lemma fold_min_spec (x : Q) (l : list Q) :
  let m := foldl (fun m y => if Qltb y m then y else m) x l in
  m ∈ x :: l /\ forall y, y ∈ x :: l -> (m <= y)%Q.
Proof.
  revert x. induction l as [|z l IH]; intros x; cbn zeta.
  { split; [left|]. intros y ->%list_elem_of_singleton. apply Qle_refl. }
  cbn [foldl]. destruct (IH (if Qltb z x then z else x)) as [Hin Hle].
  cbn zeta in Hin, Hle. split.
  - apply elem_of_cons in Hin as [->|Hin]; [|by do 2 right].
    destruct (Qltb z x); [right; left|left].
  - intros y Hy.
    assert (Hm : ((if Qltb z x then z else x) <= x)%Q
                 /\ ((if Qltb z x then z else x) <= z)%Q).
    { destruct (Qltb z x) eqn:E.
      - apply Qltb_lt in E. split; lra.
      - apply Qltb_ge in E. split; lra. }
    pose proof (Hle _ (list_elem_of_here _ _)) as H0.
    apply elem_of_cons in Hy as [->|Hy]; [lra|].
    apply elem_of_cons in Hy as [->|Hy]; [lra|].
    apply Hle. by right.
Qed.

Lemma fold_max_spec (x : Q) (l : list Q) :
  let m := foldl (fun m y => if Qltb m y then y else m) x l in
  m ∈ x :: l /\ forall y, y ∈ x :: l -> (y <= m)%Q.
Proof.
  revert x. induction l as [|z l IH]; intros x; cbn zeta.
  { split; [left|]. intros y ->%list_elem_of_singleton. apply Qle_refl. }
  cbn [foldl]. destruct (IH (if Qltb x z then z else x)) as [Hin Hle].
  cbn zeta in Hin, Hle. split.
  - apply elem_of_cons in Hin as [->|Hin]; [|by do 2 right].
    destruct (Qltb x z); [right; left|left].
  - intros y Hy.
    assert (Hm : (x <= (if Qltb x z then z else x))%Q
                 /\ (z <= (if Qltb x z then z else x))%Q).
    { destruct (Qltb x z) eqn:E.
      - apply Qltb_lt in E. split; lra.
      - apply Qltb_ge in E. split; lra. }
    pose proof (Hle _ (list_elem_of_here _ _)) as H0.
    apply elem_of_cons in Hy as [->|Hy]; [lra|].
    apply elem_of_cons in Hy as [->|Hy]; [lra|].
    apply Hle. by right.
Qed.

Lemma plot_window_spec (times : list Q) :
  match plot_window times with
  | Raise e => e = "ValueError" /\ times = []
  | Return (a, b) =>
      times <> [] /\ (1 # 10 <= b - a)%Q
      /\ forall t, t ∈ times -> (a <= t)%Q /\ (t <= b)%Q
  end.
Proof.
  destruct times as [|x l]; [by split|].
  unfold plot_window, py_min_list, py_max_list. cbn [mbind result_bind].
  destruct (fold_min_spec x l) as [Hmin_in Hmin].
  destruct (fold_max_spec x l) as [Hmax_in Hmax].
  cbn zeta in *.
  set (tmin := foldl (fun m y => if Qltb y m then y else m) x l) in *.
  set (tmax := foldl (fun m y => if Qltb m y then y else m) x l) in *.
  pose proof (Hmin _ Hmax_in) as Hmm.
  destruct (Qltb (tmax - tmin) (1 # 10)) eqn:E.
  - split; [done|]. split; [lra|]. intros t Ht.
    specialize (Hmin t Ht). specialize (Hmax t Ht). split; lra.
  - apply Qltb_ge in E. split; [done|]. split; [lra|]. intros t Ht.
    specialize (Hmin t Ht). specialize (Hmax t Ht). split; lra.
Qed.

Lemma for_each_accumulate {A B} (f : A -> result (list B))
    (body : A -> list B -> result (list B)) (l : list A) (acc : list B) :
  (forall a acc, body a acc = x ← f a; Return (acc ++ x)) ->
  match for_each body l acc with
  | Return res =>
      Forall (fun a => exists x, f a = Return x) l
      /\ exists more, res = acc ++ more
  | Raise e => Exists (fun a => f a = Raise e) l
  end.
Proof.
  intros Hbody. revert acc. induction l as [|a l IH]; intros acc.
  { simpl. split; [constructor|]. exists []. by rewrite app_nil_r. }
  cbn [for_each]. rewrite Hbody.
  destruct (f a) as [e|x] eqn:Hf; cbn [mbind result_bind].
  { by left. }
  specialize (IH (acc ++ x)).
  destruct (for_each body l (acc ++ x)) as [e|res].
  - by right.
  - destruct IH as [Hall [more ->]]. split.
    + constructor; [by eexists|exact Hall].
    + exists (x ++ more). by rewrite app_assoc.
Qed.

Lemma annotate_after_plot (g : gate) (coords : list (string * nat)) b0 rest y :
  involved_qubits g = b0 :: rest ->
  dict_get coords b0 = Return y ->
  exists a, annotate_gate g coords = Return a.
Proof.
  intros Hq Hy. unfold annotate_gate.
  destruct (annotation g) as [a|]; [|by eexists].
  destruct (String.eqb a ""); [by eexists|].
  unfold py_index. rewrite Hq. cbn [lookup list_lookup mbind result_bind].
  rewrite Hy. by eexists.
Qed.

(** A gate is drawn without exception exactly when it is drawable. *)
Lemma gate_drawable (c : circuit) (g : gate) :
  (exists x, (a1 ← plot_gate g (coords_of c);
              a2 ← annotate_gate g (coords_of c);
              Return (a1 ++ a2)) = Return x)
  <-> drawable c g.
Proof.
  unfold plot_gate, drawable.
  assert (Hfirst :
    (exists x, (a1 ← Gate_plot_gate g (coords_of c);
                a2 ← annotate_gate g (coords_of c);
                Return (a1 ++ a2)) = Return x)
    <-> exists b0 rest, involved_qubits g = b0 :: rest /\ registered c b0).
  { unfold Gate_plot_gate, py_index.
    destruct (involved_qubits g) as [|b0 rest] eqn:Hq.
    { split; [by intros [x ?]|by intros (? & ? & ? & _)]. }
    cbn [lookup list_lookup mbind result_bind].
    destruct (dict_get (coords_of c) b0) as [e|y] eqn:Hy.
    - split; [by intros [x ?]|]. intros (b & r & [= <- <-] & Hreg).
      apply dict_get_registered in Hreg as [i Hi]. congruence.
    - cbn [mbind result_bind].
      destruct (annotate_after_plot g _ b0 rest y Hq Hy) as [a ->].
      cbn [mbind result_bind]. split; [|by eexists].
      intros _. exists b0, rest. split; [done|].
      apply dict_get_registered. eauto. }
  destruct (cls g); try exact Hfirst.
  - (* controlled phase *)
    unfold CPhase_plot_gate, py_index.
    destruct (involved_qubits g) as [|b0 [|b1 rest]] eqn:Hq.
    + split; [by intros [x ?]|by intros (? & ? & ? & ? & _)].
    + split; [by intros [x ?]|by intros (? & ? & ? & ? & _)].
    + cbn [lookup list_lookup mbind result_bind].
      destruct (dict_get (coords_of c) b0) as [e|y0] eqn:Hy0.
      { split; [by intros [x ?]|].
        intros (? & ? & ? & [= <- <- <-] & Hreg & _).
        apply dict_get_registered in Hreg as [i Hi]. congruence. }
      cbn [mbind result_bind].
      destruct (dict_get (coords_of c) b1) as [e|y1] eqn:Hy1.
      { split; [by intros [x ?]|].
        intros (? & ? & ? & [= <- <- <-] & _ & Hreg).
        apply dict_get_registered in Hreg as [i Hi]. congruence. }
      cbn [mbind result_bind].
      destruct (annotate_after_plot g _ b0 (b1 :: rest) y0 Hq Hy0) as [a ->].
      cbn [mbind result_bind]. split; [|by eexists].
      intros _. exists b0, b1, rest. split; [done|].
      split; apply dict_get_registered; eauto.
  - (* decoherence channel *)
    unfold AmpPhDamp_plot_gate, py_index.
    destruct (involved_qubits g) as [|b0 rest] eqn:Hq.
    { split; [by intros [x ?]|by intros [(? & ? & ? & _) _]]. }
    cbn [lookup list_lookup mbind result_bind].
    destruct (dict_get (coords_of c) b0) as [e|y] eqn:Hy.
    { split; [by intros [x ?]|]. intros [(b & r & [= <- <-] & Hreg) _].
      apply dict_get_registered in Hreg as [i Hi]. congruence. }
    cbn [mbind result_bind].
    destruct (damping g) as [[[d t1'] t2']|].
    + cbn [mbind result_bind].
      destruct (annotate_after_plot g _ b0 rest y Hq Hy) as [a ->].
      cbn [mbind result_bind]. split; [|by eexists].
      intros _. split; [|by eexists]. exists b0, rest. split; [done|].
      apply dict_get_registered. eauto.
    + split; [by intros [x ?]|]. by intros [_ [? ?]].
Qed.

Lemma plot_qubit_lines_total (c : circuit) (tmin tmax : Q) :
  exists ls, plot_qubit_lines (coords_of c) tmin tmax = Return ls.
Proof.
  unfold plot_qubit_lines.
  set (buffer := ((tmax - tmin) * (5 # 100))%Q).
  pose proof (for_each_accumulate
    (fun kv : string * nat =>
       y ← dict_get (coords_of c) kv.1;
       Return [AddLine ((tmin - buffer)%Q, (tmax + buffer)%Q) (y, y);
               Text ((tmin - buffer)%Q - 2 * buffer)%Q y kv.1])
    (fun kv acc =>
       y ← dict_get (coords_of c) kv.1;
       Return (acc ++ [AddLine ((tmin - buffer)%Q, (tmax + buffer)%Q) (y, y);
                       Text ((tmin - buffer)%Q - 2 * buffer)%Q y kv.1]))
    (coords_of c) []) as H.
  cbn [fst] in *.
  destruct (for_each _ (coords_of c) []) as [e|res].
  - exfalso.
    assert (Hex : Exists (fun kv : string * nat =>
              (y ← dict_get (coords_of c) kv.1;
               Return [AddLine ((tmin - buffer)%Q, (tmax + buffer)%Q) (y, y);
                       Text ((tmin - buffer)%Q - 2 * buffer)%Q y kv.1])
              = Raise e) (coords_of c)).
    { apply H. intros kv acc. by destruct (dict_get (coords_of c) kv.1). }
    apply Exists_exists in Hex as ([k v] & Hin & Hr).
    apply dict_get_elem in Hin as [v' Hv']. cbn [fst] in Hr.
    by rewrite Hv' in Hr.
  - by eexists.
Qed.

Lemma plot_body_accumulates (w : world) (c : circuit) (l : list ref)
    (acc : list artist) :
  match for_each (fun r acc =>
                    a1 ← plot_gate (deref w r) (coords_of c);
                    a2 ← annotate_gate (deref w r) (coords_of c);
                    Return (acc ++ a1 ++ a2)) l acc with
  | Return res =>
      Forall (fun r => drawable c (deref w r)) l
      /\ exists more, res = acc ++ more
  | Raise e => ~ Forall (fun r => drawable c (deref w r)) l
  end.
Proof.
  pose proof (for_each_accumulate
    (fun r => a1 ← plot_gate (deref w r) (coords_of c);
              a2 ← annotate_gate (deref w r) (coords_of c);
              Return (a1 ++ a2))
    (fun r acc => a1 ← plot_gate (deref w r) (coords_of c);
                  a2 ← annotate_gate (deref w r) (coords_of c);
                  Return (acc ++ a1 ++ a2)) l acc) as H.
  destruct (for_each _ l acc) as [e|res].
  - intros Hall.
    assert (Hex : Exists (fun r =>
              (a1 ← plot_gate (deref w r) (coords_of c);
               a2 ← annotate_gate (deref w r) (coords_of c);
               Return (a1 ++ a2)) = Raise e) l).
    { apply H. intros r acc'.
      destruct (plot_gate _ _); [done|]. by destruct (annotate_gate _ _). }
    apply Exists_exists in Hex as (r & Hin & Hr).
    eapply Forall_forall in Hall; [|exact Hin].
    apply gate_drawable in Hall as [x Hx]. congruence.
  - destruct H as [Hall Hmore].
    { intros r acc'.
      destruct (plot_gate _ _); [done|]. by destruct (annotate_gate _ _). }
    split; [|exact Hmore].
    eapply Forall_impl; [exact Hall|]. intros r Hr. by apply gate_drawable.
Qed.

(** X20. [plot] completes exactly when the circuit has at least one gate and
    every gate is drawable; without gates it raises [ValueError], and a gate
    on a qubit name that is not registered makes it raise. *)
Theorem plot_succeeds (w : world) (c : circuit) :
  ((exists arts, plot w c = Return arts)
   <-> gates c <> [] /\ Forall (fun r => drawable c (deref w r)) (gates c))
  /\ (gates c = [] -> plot w c = Raise "ValueError").
Proof.
  unfold plot.
  pose proof (plot_window_spec ((fun r => time (deref w r)) <$> gates c)) as Hw.
  destruct (plot_window _) as [e|[tmin tmax]].
  - destruct Hw as [-> Hnil]. apply fmap_nil_inv in Hnil. split.
    + split; [by intros [a ?]|]. by intros [? _].
    + done.
  - destruct Hw as (Hne & _). cbn [mbind result_bind].
    assert (Hg : gates c <> []) by (intros E; by rewrite E in Hne).
    split; [|done].
    destruct (plot_qubit_lines_total c tmin tmax) as [ls ->].
    cbn [mbind result_bind].
    match goal with
    | |- context [for_each ?body (gates c) ?acc] =>
        pose proof (plot_body_accumulates w c (gates c) acc) as H
    end.
    destruct (for_each _ (gates c) _) as [e|res].
    + split; [by intros [a ?]|]. by intros [_ ?].
    + destruct H as [Hall _]. split; [done|]. by eexists.
Qed.

(** X21. When [plot] completes, it first sets the title, no y-ticks, the
    x-limits, the y-limits [(-1, number of qubits)] and the x-label; the
    x-limits enclose the timestamp of every gate. *)
Theorem plot_limits (w : world) (c : circuit) (arts : list artist) :
  plot w c = Return arts ->
  exists a b rest,
    arts = [SetTitle (title c); SetYTicks []; SetXlim a b;
            SetYlim (-1)%Z (length (qubits c)); SetXlabel "time"] ++ rest
    /\ (a <= b)%Q
    /\ forall r, r ∈ gates c ->
         (a <= time (deref w r))%Q /\ (time (deref w r) <= b)%Q.
Proof.
  unfold plot.
  pose proof (plot_window_spec ((fun r => time (deref w r)) <$> gates c)) as Hw.
  destruct (plot_window _) as [e|[tmin tmax]]; [done|].
  destruct Hw as (_ & Hwide & Hin). cbn [mbind result_bind].
  destruct (plot_qubit_lines_total c tmin tmax) as [ls ->].
  cbn [mbind result_bind].
  match goal with
  | |- context [for_each ?body (gates c) ?acc] =>
      pose proof (plot_body_accumulates w c (gates c) acc) as H
  end.
  destruct (for_each _ (gates c) _) as [e|res]; [done|].
  destruct H as [_ [more ->]]. intros [= <-].
  eexists _, _, (ls ++ more). split; [reflexivity|].
  split; [lra|]. intros r Hr.
  destruct (Hin (time (deref w r))) as [H1 H2].
  { apply list_elem_of_fmap. by exists r. }
  split; lra.
Qed.

Lemma plot_limits_witness :
  exists a b rest,
    plot example.1 example.2
    = Return ([SetTitle "example"; SetYTicks []; SetXlim a b;
               SetYlim (-1)%Z 2; SetXlabel "time"] ++ rest)
    /\ (a <= b)%Q.
Proof.
  destruct (plot example.1 example.2) as [e|arts] eqn:H;
    [vm_compute in H; discriminate|].
  destruct (plot_limits example.1 example.2 arts H)
    as (a & b & rest & -> & Hwide & _).
  exists a, b, rest. split; [reflexivity | exact Hwide].
Defined.
